(** * Set packing as an Ising Hamiltonian: a shallow embedding

    This development embeds [qiskit_aqua/translators/ising/setpacking.py]
    and proves the properties its specification states (part II) and
    further properties of the code (part III).

    Conventions of the embedding.
    - A Python list is a [list]; [a[i]] is stdpp's lookup and [a[i] = v]
      stdpp's insert.  Reads that Python would refuse are made explicit
      with the [result] type below.
    - A NumPy array that only ever holds the values 0 and 1 ([vp], [wp],
      [x], [sol]) is a [list Z].
    - [set(L) & set(R)] is an intersection of [gset]s; a Python set is
      truthy when it is not empty.
    - The coefficients of the Hamiltonian and its shift are the binary64
      numbers 2.5 and -0.5 and finite sums of them.  These are multiples
      of 1/2 which binary64 adds without rounding while they stay below
      2^52, so they are modelled as rationals ([Q]).
    - Every other floating-point number (amplitudes, normalised counts,
      numbers parsed from a file) is a binary64 value of the Standard
      Library's [SpecFloat], with its rounding, infinities and NaN. *)

From Stdlib Require Import ZArith QArith Lia Lqa.
From Stdlib Require Import Floats.SpecFloat.
From Stdlib Require Import Strings.Ascii Strings.String.
From stdpp Require Import gmap strings list pretty.

(** * Part I: the program and the vocabulary of its specification *)

(** ** Exceptions *)

Inductive exn : Set :=
  | IndexError
  | ValueError
  | OverflowError
  | AssertionError
  | FileNotFoundError.

Inductive result (T : Type) : Type :=
  | Ok (v : T)
  | Raise (e : exn).
Arguments Ok {T} v.
Arguments Raise {T} e.

#[global] Instance result_ret : MRet result := λ T v, Ok v.

#[global] Instance result_bind : MBind result := λ T U k r,
  match r with
  | Ok v => k v
  | Raise e => Raise e
  end.

Definition raises {T : Type} (r : result T) : Prop :=
  match r with
  | Ok _ => False
  | Raise _ => True
  end.

(** A [for] loop whose body may raise: the first exception ends it. *)
Fixpoint for_each {S X : Type} (body : S → X → result S) (xs : list X) (s : S)
  : result S :=
  match xs with
  | [] => Ok s
  | x :: xs' => s' ← body s x; for_each body xs' s'
  end.

(** [range(n)] *)
Definition range (n : nat) : list nat := seq 0 n.

(** [np.zeros(n)] *)
Definition np_zeros (n : nat) : list Z := replicate n 0%Z.

(** ** Pauli terms and operators

    [Pauli(v, w)] of qiskit keeps the two 0/1 vectors; qubit [k] carries
    I, Z, X or Y according to [(v[k], w[k])].  An [Operator] is recorded
    by the weighted list [Operator(paulis=...)] is given; the terms it
    holds once constructed are [operator_terms] below. *)

Record Pauli : Type := mkPauli { pauli_v : list Z; pauli_w : list Z }.

Record Operator : Type := mkOperator { paulis : list (Q * Pauli) }.

Inductive pauli_letter : Set := PI | PX | PY | PZ.

(** The letter of one qubit: I for [(0, 0)], X for [(0, 1)], Y for
    [(1, 1)] and Z for [(1, 0)]. *)

Definition letter_of (v w : Z) : pauli_letter :=
  match Z.eqb v 0, Z.eqb w 0 with
  | true, true => PI
  | true, false => PX
  | false, false => PY
  | false, true => PZ
  end.

Definition to_label (p : Pauli) : list pauli_letter :=
  zip_with letter_of (pauli_v p) (pauli_w p).

#[global] Instance pauli_letter_eq_dec : EqDecision pauli_letter.
Proof. solve_decision. Defined.

(** The constructor of [Operator] is in [operator.py] of [qiskit_aqua],
    next to this module and not part of it.  It does not keep the list
    it is given as it is: it goes through the terms in order and merges
    those whose Paulis have the same label, adding the coefficient of a
    term to the first term with that label (which it finds through a
    dictionary from labels to positions) and appending a term whose label
    is new; a term whose coefficient comes to zero stays.  [paulis] is the
    list the constructor is given and [operator_terms] the list the
    operator holds. *)
Fixpoint merge_term (t : Q * Pauli) (new_paulis : list (Q * Pauli))
  : list (Q * Pauli) :=
  match new_paulis with
  | [] => [t]
  | u :: rest =>
      if decide (to_label u.2 = to_label t.2)
      then ((u.1 + t.1)%Q, u.2) :: rest
      else u :: merge_term t rest
  end.

Definition simplify_paulis (terms : list (Q * Pauli)) : list (Q * Pauli) :=
  fold_left (λ new_paulis t, merge_term t new_paulis) terms [].

Definition operator_terms (op : Operator) : list (Q * Pauli) :=
  simplify_paulis (paulis op).

(** ** The Hamiltonian of set packing *)

Section Hamiltonian.
Context `{Countable E}.

(** The test [set(L) & set(R)] of the source. *)
Definition intersects (L R : list E) : bool :=
  bool_decide ((list_to_set L : gset E) ∩ list_to_set R ≠ ∅).

Definition pauli_acc : Type := list (Q * Pauli) * Q.

(** The body of the inner loop (lines 76 to 91), on the pair
    [(pauli_list, shift)].  [A] is the constant 10 of the source. *)
Definition constraint_body (n : nat) (list_of_subsets : list (list E))
    (i j : nat) (acc : pauli_acc) : pauli_acc :=
  let A : Q := 10%Q in
  let '(pauli_list, shift) := acc in
  if intersects (list_of_subsets !!! i) (list_of_subsets !!! j) then
    let wp := np_zeros n in
    let vp := np_zeros n in
    let vp := <[i:=1%Z]> vp in
    let vp := <[j:=1%Z]> vp in
    let pauli_list := pauli_list ++ [((A * 0.25)%Q, mkPauli vp wp)] in
    let vp2 := np_zeros n in
    let vp2 := <[i:=1%Z]> vp2 in
    let pauli_list := pauli_list ++ [((A * 0.25)%Q, mkPauli vp2 wp)] in
    let vp3 := np_zeros n in
    let vp3 := <[j:=1%Z]> vp3 in
    let pauli_list := pauli_list ++ [((A * 0.25)%Q, mkPauli vp3 wp)] in
    (pauli_list, (shift + A * 0.25)%Q)
  else (pauli_list, shift).

(** The first loop nest (lines 74 to 91). *)
Definition constraint_pass (n : nat) (list_of_subsets : list (list E))
    (acc : pauli_acc) : pauli_acc :=
  fold_left
    (λ acc i,
       fold_left (λ acc j, constraint_body n list_of_subsets i j acc)
                 (range i) acc)
    (range n) acc.

(** The body of the second loop (lines 94 to 98). *)
Definition objective_body (n i : nat) (acc : pauli_acc) : pauli_acc :=
  let '(pauli_list, shift) := acc in
  let wp := np_zeros n in
  let vp := np_zeros n in
  let vp := <[i:=1%Z]> vp in
  (pauli_list ++ [((-0.5)%Q, mkPauli vp wp)], (shift + -0.5)%Q).

Definition objective_pass (n : nat) (acc : pauli_acc) : pauli_acc :=
  fold_left (λ acc i, objective_body n i acc) (range n) acc.

Definition get_setpacking_qubitops (list_of_subsets : list (list E))
  : Operator * Q :=
  let shift : Q := 0%Q in
  let pauli_list : list (Q * Pauli) := [] in
  let n := length list_of_subsets in
  let acc := constraint_pass n list_of_subsets (pauli_list, shift) in
  let '(pauli_list, shift) := objective_pass n acc in
  (mkOperator pauli_list, shift).

(** *** What the specification says about it *)

(** The pairs the nested loops visit, in the order they visit them:
    [i] from 0 to [n-1] and, for each [i], [j] from 0 to [i-1]. *)
Definition loop_pairs (n : nat) : list (nat * nat) :=
  i ← range n; (λ j, (i, j)) <$> range i.

(** The Pauli term that has Z on the qubits listed in [qs] and the
    identity elsewhere. *)
Definition z_term (n : nat) (qs : list nat) : Pauli :=
  mkPauli ((λ k, if bool_decide (k ∈ qs) then 1%Z else 0%Z) <$> range n)
          (replicate n 0%Z).

(** The three terms of an intersecting pair. *)
Definition penalty_terms (n i j : nat) : list (Q * Pauli) :=
  [ ((10 * 0.25)%Q, z_term n [i; j]);
    ((10 * 0.25)%Q, z_term n [i]);
    ((10 * 0.25)%Q, z_term n [j]) ].

Definition pair_intersects (list_of_subsets : list (list E))
    (p : nat * nat) : bool :=
  intersects (list_of_subsets !!! p.1) (list_of_subsets !!! p.2).

(** The unordered pairs of distinct indices below [n], each written
    once with its smaller index first, and how many of them have
    intersecting subsets. *)
Definition unordered_pairs (n : nat) : list (nat * nat) :=
  i ← range n; (λ j, (i, j)) <$> seq (S i) (n - S i).

Definition intersecting_pairs (list_of_subsets : list (list E)) : nat :=
  length (filter (λ p, pair_intersects list_of_subsets p)
                 (unordered_pairs (length list_of_subsets))).

(** The terms one pair contributes: three when its subsets intersect,
    none otherwise. *)
Definition pair_terms (n : nat) (subsets : list (list E)) (p : nat * nat)
  : list (Q * Pauli) :=
  if pair_intersects subsets p then penalty_terms n p.1 p.2 else [].

(** A count as a rational. *)
Definition Qnat (k : nat) : Q := inject_Z (Z.of_nat k).

End Hamiltonian.

(** The instance of section 8 of the specification. *)
Definition example_subsets : list (list Z) := [[1; 2]; [2; 3]; [4; 5]]%Z.

(** ** Decoding: the complement of the assignment *)

(** [1 - x] on a NumPy array. *)
Definition get_solution (x : list Z) : list Z := (λ v, (1 - v)%Z) <$> x.

Definition binary (v : Z) : Prop := v = 0%Z ∨ v = 1%Z.

(** ** Checking that the selected subsets are disjoint *)

(** [a[i]] on a sequence: an index past the end raises. *)
Definition getitem {T : Type} (a : list T) (i : nat) : result T :=
  match a !! i with
  | Some v => Ok v
  | None => Raise IndexError
  end.

(** A [for] loop whose body may [return]: the first [Some] leaves the
    loop with that value, [None] goes on with the next element. *)
Fixpoint first_return {X R : Type} (body : X → option R) (xs : list X)
  : option R :=
  match xs with
  | [] => None
  | x :: xs' =>
      match body x with
      | Some r => Some r
      | None => first_return body xs'
      end
  end.

Section CheckDisjoint.
Context `{Countable E}.

(** The first loop (lines 163 to 165) and its body. *)
Definition select_body (sol : list Z) (list_of_subsets : list (list E))
    (selected_subsets : list (list E)) (i : nat) : result (list (list E)) :=
  s ← getitem sol i;
  if Z.eqb s 1
  then Ok (selected_subsets ++ [list_of_subsets !!! i])
  else Ok selected_subsets.

Definition select_subsets (sol : list Z) (list_of_subsets : list (list E))
  : result (list (list E)) :=
  for_each (select_body sol list_of_subsets)
           (range (length list_of_subsets)) [].

(** The loop nest (lines 167 to 172) and the final [return True]. *)
Definition no_overlap (selected_subsets : list (list E)) : bool :=
  let tmplen := length selected_subsets in
  match
    first_return
      (λ i, first_return
              (λ j, let L := selected_subsets !!! i in
                    let R := selected_subsets !!! j in
                    if intersects L R then Some false else None)
              (range i))
      (range tmplen)
  with
  | Some b => b
  | None => true
  end.

Definition check_disjoint (sol : list Z) (list_of_subsets : list (list E))
  : result bool :=
  selected_subsets ← select_subsets sol list_of_subsets;
  Ok (no_overlap selected_subsets).

(** *** What the specification says about it *)

(** The indices of the subsets that [sol] selects. *)
Definition selected (sol : list Z) (n : nat) : list nat :=
  filter (λ i, sol !! i = Some 1%Z) (range n).

(** Disjoint subsets: the sets of their elements have an empty
    intersection. *)
Definition disjoint_subsets (L R : list E) : Prop :=
  (list_to_set L : gset E) ∩ list_to_set R = ∅.

End CheckDisjoint.

(** ** Binary64 numbers *)

Definition prec : Z := 53.
Definition emax : Z := 1024.

(** The binary64 number nearest to the integer [z], ties to even; an
    infinity when that is beyond the largest double. *)
Definition float_of_Z (z : Z) : spec_float := binary_normalize prec emax z 0 false.

(** [float(z)] on a Python integer, which is also the conversion NumPy
    makes when an integer is stored into an array of doubles: the nearest
    binary64 number, and [OverflowError] when the integer is too large
    for a double. *)
Definition float_of_int (z : Z) : result spec_float :=
  match float_of_Z z with
  | S754_infinity _ => Raise OverflowError
  | f => Ok f
  end.

Definition is_nan (f : spec_float) : bool :=
  match f with
  | S754_nan => true
  | _ => false
  end.

(** ** Decoding the most likely bit string *)

(** An entry of a dense state vector: a real or a complex binary64
    number. *)
Inductive amplitude : Type :=
  | Real (x : spec_float)
  | Complex (re im : spec_float).

(** The two kinds of input [sample_most_likely] tells apart with
    [isinstance]: an array, or a dictionary of counts by bit string.  A
    count is a natural number. *)
Inductive state_vector_input : Type :=
  | Dense (v : list amplitude)
  | Sparse (counts : gmap string N).

(** [np.argmax] on an array of doubles, as NumPy computes it: the index of
    the first maximum, where a NaN counts as a maximum and ends the scan;
    an empty array raises [ValueError]. *)
Fixpoint argmax_scan (mp : spec_float) (max_ind i : nat) (ip : list spec_float)
  : nat :=
  match ip with
  | [] => max_ind
  | x :: ip' =>
      if is_nan mp then max_ind
      else if SFleb x mp then argmax_scan mp max_ind (S i) ip'
      else argmax_scan x i (S i) ip'
  end.

Definition np_argmax (a : list spec_float) : result nat :=
  match a with
  | [] => Raise ValueError
  | x :: a' => Ok (argmax_scan x 0 1 a')
  end.

(** [np.binary_repr(num, width)] for [num >= 0], as NumPy defines it:
    ['0' * (width or 1)] for 0, and otherwise the binary digits of [num]
    filled with zeros on the left up to [width]. *)
Fixpoint bin_digits (p : positive) : string :=
  match p with
  | xH => "1"
  | xO p' => bin_digits p' +:+ "0"
  | xI p' => bin_digits p' +:+ "1"
  end.

Fixpoint zeros_string (k : nat) : string :=
  match k with
  | O => EmptyString
  | S k' => String "0"%char (zeros_string k')
  end.

Definition zfill (width : nat) (s : string) : string :=
  zeros_string (width - String.length s) +:+ s.

Definition binary_repr (num width : nat) : string :=
  match N.of_nat num with
  | N0 => zeros_string (if decide (width = 0) then 1 else width)
  | Npos p =>
      let binary := bin_digits p in
      let binwidth := String.length binary in
      zfill (max binwidth width) binary
  end.

(** [int(s, 2)] for a string of binary digits. *)
Fixpoint bin_value_from (acc : N) (s : string) : N :=
  match s with
  | EmptyString => acc
  | String c s' =>
      bin_value_from (2 * acc + (if Ascii.eqb c "1" then 1 else 0))%N s'
  end.

Definition bin_value (s : string) : N := bin_value_from 0%N s.

Section SampleMostLikely.

(** The magnitude of a complex double is left to the C library by NumPy;
    it is a parameter here. *)
Variable hypot : spec_float → spec_float → spec_float.

(** [np.abs] on one entry. *)
Definition np_abs (a : amplitude) : spec_float :=
  match a with
  | Real x => SFabs x
  | Complex re im => hypot re im
  end.

(** The body of the loop of lines 133 to 137, on [(temp_vec, total)].
    Storing the count into the array of doubles converts it, and raises
    when it is too large; the total is a Python integer. *)
Definition counts_body (n : nat) (counts : gmap string N)
    (acc : list spec_float * N) (i : nat) : result (list spec_float * N) :=
  let '(temp_vec, total) := acc in
  let state := binary_repr i n in
  let count := default 0%N (counts !! state) in
  stored ← float_of_int (Z.of_N count);
  Ok (<[i := stored]> temp_vec, (total + count)%N).

(** Lines 131 to 138: the dense vector of a dictionary of counts.  The
    division is NumPy's: it has no test on the divisor. *)
Definition normalised_counts (n : nat) (counts : gmap string N)
  : result (list spec_float) :=
  let temp_vec := replicate (2 ^ n) (S754_zero false) in
  let total := 0%N in
  filled ← for_each (counts_body n counts) (range (2 ^ n)) (temp_vec, total);
  let '(temp_vec, total) := filled : list spec_float * N in
  divisor ← float_of_int (Z.of_N total);
  Ok ((λ c, SFdiv prec emax c divisor) <$> temp_vec).

(** The body of the loop of lines 142 to 144, on [(x, k)]. *)
Definition bits_body (acc : list Z * Z) (i : nat) : list Z * Z :=
  let '(x, k) := acc in
  (<[i := (k `mod` 2)%Z]> x, Z.shiftr k 1).

Definition sample_most_likely (n : nat) (state_vector : state_vector_input)
  : result (list Z) :=
  state_vector ←
    match state_vector return result (list amplitude) with
    | Sparse counts =>
        temp_vec ← normalised_counts n counts;
        Ok (Real <$> (temp_vec : list spec_float))
    | Dense v => Ok v
    end;
  k ← np_argmax (np_abs <$> (state_vector : list amplitude));
  let x := np_zeros n in
  let '(x, k) := fold_left bits_body (range n) (x, Z.of_nat k) in
  Ok x.

(** *** What the specification says about it *)

(** The binary vector of [k], least significant bit first. *)
Definition bits_of (n : nat) (k : nat) : list Z :=
  (λ i, Z.b2z (Z.testbit (Z.of_nat k) (Z.of_nat i))) <$> range n.

(** The count the dictionary holds for index [i], 0 when it holds none. *)
Definition count_of (n : nat) (counts : gmap string N) (i : nat) : N :=
  default 0%N (counts !! binary_repr i n).

Definition total_count (n : nat) (counts : gmap string N) : N :=
  foldr N.add 0%N (count_of n counts <$> range (2 ^ n)).

(** [m] at index [k] is the first maximum of [a]. *)
Definition first_maximum (a : list spec_float) (k : nat) (m : spec_float) : Prop :=
  a !! k = Some m
  ∧ (∀ j f, a !! j = Some f → SFleb f m = true)
  ∧ (∀ j f, j < k → a !! j = Some f → SFltb f m = true).

(** The array [np.abs] and [np.argmax] see. *)
Definition dense_of (n : nat) (state_vector : state_vector_input)
  : result (list amplitude) :=
  match state_vector with
  | Sparse counts =>
      temp_vec ← normalised_counts n counts;
      Ok (Real <$> (temp_vec : list spec_float))
  | Dense v => Ok v
  end.

End SampleMostLikely.

(** A magnitude for complex entries, for the examples: the rounded square
    root of the rounded sum of the rounded squares. *)
Definition naive_hypot (re im : spec_float) : spec_float :=
  SFsqrt prec emax
    (SFadd prec emax (SFmul prec emax re re) (SFmul prec emax im im)).

(** The amplitudes 1, 3+4i, -5 and 5. *)
Definition example_amplitudes : list amplitude :=
  [ Real (float_of_Z 1); Complex (float_of_Z 3) (float_of_Z 4);
    Real (float_of_Z (-5)); Real (float_of_Z 5) ].

(** ** Numbers in a text file *)

(** The line feed and the carriage return. *)
Definition LF : ascii := "010"%char.
Definition CR : ascii := "013"%char.

(** The lines a text file yields when it is iterated, as Python reads it:
    a line ends after a line feed, and a carriage return, alone or before
    a line feed, is a line end that reads as a line feed. *)
Fixpoint file_lines (s : string) : list string :=
  match s with
  | EmptyString => []
  | String c s' =>
      if Ascii.eqb c LF then String LF EmptyString :: file_lines s'
      else if Ascii.eqb c CR then
        match s' with
        | String c' s'' =>
            if Ascii.eqb c' LF then String LF EmptyString :: file_lines s''
            else String LF EmptyString :: file_lines s'
        | EmptyString => [String LF EmptyString]
        end
      else
        match file_lines s' with
        | [] => [String c EmptyString]
        | line :: lines => String c line :: lines
        end
  end.

(** [round(f)] for a float: the nearest integer, ties to even; it raises
    on an infinity and on a NaN. *)
Definition round_half_even (m d : Z) : Z :=
  let q := (m `div` d)%Z in
  let r := (m `mod` d)%Z in
  match (2 * r ?= d)%Z with
  | Lt => q
  | Gt => (q + 1)%Z
  | Eq => if Z.even q then q else (q + 1)%Z
  end.

Definition py_round (f : spec_float) : result Z :=
  match f with
  | S754_nan => Raise ValueError
  | S754_infinity _ => Raise OverflowError
  | S754_zero _ => Ok 0%Z
  | S754_finite s m e =>
      let a := if (0 <=? e)%Z then (Z.pos m * 2 ^ e)%Z
               else round_half_even (Z.pos m) (2 ^ (- e)) in
      Ok (if s then (- a)%Z else a)
  end.

(** [z == f] for an integer and a float: Python compares the exact
    values. *)
Definition int_eq_float (z : Z) (f : spec_float) : bool :=
  match f with
  | S754_nan | S754_infinity _ => false
  | S754_zero _ => (z =? 0)%Z
  | S754_finite s m e =>
      let sm := if s then Z.neg m else Z.pos m in
      if (0 <=? e)%Z then (z =? sm * 2 ^ e)%Z else (z * 2 ^ (- e) =? sm)%Z
  end.

Section ReadNumbers.

(** [float(line)]: a builtin of Python, a parameter here.  It raises
    [ValueError] on a line that is not a number. *)
Variable py_float : string → result spec_float.

(** The body of the loop of lines 114 to 116.  The source evaluates
    [float(line)] three times and [round] twice; so does the body. *)
Definition read_body (numbers : list Z) (line : string) : result (list Z) :=
  rounded ← (f ← py_float line; py_round f);
  value ← py_float line;
  if negb (int_eq_float rounded value) then Raise AssertionError
  else
    rounded ← (f ← py_float line; py_round f);
    Ok (numbers ++ [rounded]).

Definition read_numbers_from_file (fs : gmap string string) (filename : string)
  : result (list Z) :=
  match fs !! filename with
  | None => Raise FileNotFoundError
  | Some content => for_each read_body (file_lines content) []
  end.

End ReadNumbers.

(** ** Random weights *)

Section RandomNumberList.

(** [np.random.randint(low, high, size)] and the state of its generator
    are NumPy's: parameters here. *)
Variable RNG : Type.
Variable randint : RNG → Z → Z → nat → result (list Z * RNG).

(** The body of the loop of lines 43 and 44; [outfile] is the text written
    so far. *)
Definition write_body (number_list : list Z) (outfile : string) (i : nat)
  : result string :=
  x ← getitem number_list i;
  Ok (outfile +:+ (pretty x +:+ String LF EmptyString)).

(** [if savefile:] holds for a path that is not empty.  The file is taken
    to be writable: [open] succeeds and leaves it empty. *)
Definition truthy (savefile : option string) : option string :=
  match savefile with
  | Some EmptyString => None
  | other => other
  end.

Definition random_number_list (g : RNG) (n : nat) (weight_range : Z)
    (savefile : option string) (fs : gmap string string)
  : result (list Z * gmap string string * RNG) :=
  '(number_list, g) ← randint g 1 (weight_range + 1) n;
  fs ← match truthy savefile with
       | Some path =>
           outfile ← for_each (write_body number_list) (range n) EmptyString;
           Ok (<[path := outfile]> fs)
       | None => Ok fs
       end;
  Ok (number_list, fs, g).

End RandomNumberList.

(** ** A reader of decimal numerals

    The part of Python's [float] that reads a decimal numeral: blanks
    around it, a sign, digits and a fraction, rounded to the nearest
    binary64 number.  Exponents and the spellings of infinity and NaN are
    outside this part and raise [ValueError] here. *)

Definition is_space (c : ascii) : bool :=
  let k := N_of_ascii c in
  ((9 <=? k)%N && (k <=? 13)%N) || (k =? 32)%N.

Definition digit_value (c : ascii) : option N :=
  let k := N_of_ascii c in
  if ((48 <=? k)%N && (k <=? 57)%N) then Some (k - 48)%N else None.

Fixpoint lstrip (s : string) : string :=
  match s with
  | EmptyString => EmptyString
  | String c s' => if is_space c then lstrip s' else s
  end.

Fixpoint rstrip (s : string) : string :=
  match s with
  | EmptyString => EmptyString
  | String c s' =>
      match rstrip s' with
      | EmptyString => if is_space c then EmptyString else String c EmptyString
      | r => String c r
      end
  end.

Definition strip (s : string) : string := rstrip (lstrip s).

(** The digits at the head of [s]: their value on top of [acc], their
    number on top of [count], and what follows them. *)
Fixpoint read_digits (acc : N) (count : nat) (s : string) : N * nat * string :=
  match s with
  | EmptyString => (acc, count, s)
  | String c s' =>
      match digit_value c with
      | Some d => read_digits (10 * acc + d)%N (S count) s'
      | None => (acc, count, s)
      end
  end.

(** The binary64 number nearest to [± m / 10^k]. *)
Definition decimal_to_float (negative : bool) (m : N) (k : nat) : spec_float :=
  match m with
  | N0 => S754_zero negative
  | Npos p =>
      match k with
      | O => float_of_Z (if negative then Z.neg p else Z.pos p)
      | S _ =>
          SFdiv prec emax (S754_finite negative p 0)
                          (S754_finite false (10 ^ Pos.of_nat k) 0)
      end
  end.

Definition float_of_decimal (line : string) : result spec_float :=
  let s := strip line in
  let '(negative, s) :=
    match s with
    | String c r =>
        if Ascii.eqb c "-" then (true, r)
        else if Ascii.eqb c "+" then (false, r)
        else (false, s)
    | EmptyString => (false, s)
    end in
  let '(int_part, int_digits, s) := read_digits 0 0 s in
  let '(mantissa, frac_digits, s) :=
    match s with
    | String c r =>
        if Ascii.eqb c "." then read_digits int_part 0 r
        else (int_part, 0, s)
    | EmptyString => (int_part, 0, s)
    end in
  match s with
  | EmptyString =>
      if (int_digits + frac_digits =? 0)%nat then Raise ValueError
      else Ok (decimal_to_float negative mantissa frac_digits)
  | _ => Raise ValueError
  end.

(** ** What the specification says about reading numbers *)

(** The integer a float is, when it is one: [± m * 2^e] is an integer when
    [e >= 0] or [2^(-e)] divides [m]. *)
Definition integer_of (f : spec_float) : option Z :=
  match f with
  | S754_zero _ => Some 0%Z
  | S754_finite s m e =>
      if (0 <=? e)%Z then
        Some (if s then - (Z.pos m * 2 ^ e) else Z.pos m * 2 ^ e)%Z
      else if (Z.pos m `mod` 2 ^ (- e) =? 0)%Z then
        Some (if s then - (Z.pos m `div` 2 ^ (- e)) else Z.pos m `div` 2 ^ (- e))%Z
      else None
  | _ => None
  end.

Definition is_finite (f : spec_float) : bool :=
  match f with
  | S754_zero _ | S754_finite _ _ _ => true
  | _ => false
  end.

(** What one line comes to: its integer, or the exception it raises. *)
Definition line_outcome (py_float : string → result spec_float) (line : string)
  : result Z :=
  f ← py_float line;
  match f with
  | S754_nan => Raise ValueError
  | S754_infinity _ => Raise OverflowError
  | _ => match integer_of f with
         | Some z => Ok z
         | None => Raise AssertionError
         end
  end.

(** The outcomes of a list, up to the first exception. *)
Fixpoint map_result {X Y : Type} (f : X → result Y) (l : list X)
  : result (list Y) :=
  match l with
  | [] => Ok []
  | x :: l' => y ← f x; ys ← map_result f l'; Ok (y :: ys)
  end.

(** A line with the text [s]. *)
Definition text_line (s : string) : string := s +:+ String LF EmptyString.

(** A file system with one file of two integers, one with a number that is
    not an integer, and one with a line that is no number. *)
Definition example_files : gmap string string :=
  <["numbers.txt" := text_line "12" +:+ text_line "7.0"]>
  (<["halves.txt" := text_line "12" +:+ text_line "7.5" +:+ text_line "3"]>
  (<["words.txt" := text_line "12" +:+ text_line "seven"]> ∅)).

(** A numeral of 401 digits, [10^400], which is beyond the doubles: [float]
    reads it as an infinity.  A file whose only line it is. *)
Definition huge_numeral : string := String "1"%char (zeros_string 400).

Definition huge_files : gmap string string :=
  <["huge.txt" := text_line huge_numeral]> ∅.

(** ** Printing integers and reading them back *)

(** The text [random_number_list] writes for a list of numbers: one
    decimal numeral and a line feed for each. *)
Definition lines_text (zs : list Z) : string :=
  foldr (λ z rest, text_line (pretty z) +:+ rest) EmptyString zs.

Fixpoint string_forall (P : ascii → bool) (s : string) : bool :=
  match s with
  | EmptyString => true
  | String c s' => P c && string_forall P s'
  end.

Definition is_digit (c : ascii) : bool :=
  match digit_value c with Some _ => true | None => false end.

(** ** What the specification says about random weights *)

(** What NumPy promises of [randint]: for bounds within the range of its
    64-bit integers, [size] numbers from [low] inclusive to [high]
    exclusive. *)
Definition randint_contract {RNG : Type}
    (randint : RNG → Z → Z → nat → result (list Z * RNG)) : Prop :=
  ∀ g low high size,
    (- 2 ^ 63 <= low)%Z → (low < high)%Z → (high <= 2 ^ 63)%Z →
    ∃ l g', randint g low high size = Ok (l, g')
            ∧ length l = size
            ∧ Forall (λ z, (low <= z < high)%Z) l.

(** What Python promises of [float] on the lines written here: a line
    with the decimal numeral of an integer from 1 to [w] parses to the
    binary64 number nearest to it. *)
Definition float_reads_integers (py_float : string → result spec_float)
    (w : Z) : Prop :=
  ∀ z, (1 <= z <= w)%Z → py_float (text_line (pretty z)) = Ok (float_of_Z z).

(** A generator for the examples: a linear congruential sequence, with
    the errors of [randint] on bounds that are empty or out of range. *)
Definition lcg_next (g : Z) : Z :=
  ((6364136223846793005 * g + 1442695040888963407) `mod` 2 ^ 64)%Z.

Fixpoint lcg_draws (g low high : Z) (size : nat) : list Z * Z :=
  match size with
  | O => ([], g)
  | S size' =>
      let '(l, g') := lcg_draws (lcg_next g) low high size' in
      ((low + g `mod` (high - low))%Z :: l, g')
  end.

Definition lcg_randint (g low high : Z) (size : nat) : result (list Z * Z) :=
  if ((- 2 ^ 63 <=? low) && (low <? high) && (high <=? 2 ^ 63))%Z
  then Ok (lcg_draws g low high size)
  else Raise ValueError.

(** ** Further vocabulary *)

(** The number a binary vector writes, least significant bit first. *)
Definition bits_value (x : list Z) : Z := foldr (λ b rest, (b + 2 * rest)%Z) 0%Z x.

(** The value of an operator on a basis state [x], a vector of bits: the
    diagonal entry of the matrix it stands for.  A term is the tensor
    product of the letters of its label.  On qubit [k] the letter Z is
    worth [(-1)^x[k]], which is [1 - 2 x[k]] on a bit, the identity is
    worth 1, and X and Y, which flip the qubit, have no diagonal entry.
    The value of the operator is the weighted sum of the values of its
    terms; it is taken over the list the operator is given, and merging
    the terms that have the same label leaves it as it is. *)
Definition letter_value (l : pauli_letter) (b : Z) : Z :=
  match l with
  | PI => 1
  | PZ => 1 - 2 * b
  | PX | PY => 0
  end.

Definition pauli_value (p : Pauli) (x : list Z) : Z :=
  foldr Z.mul 1%Z (zip_with letter_value (to_label p) x).

Definition terms_value (terms : list (Q * Pauli)) (x : list Z) : Q :=
  foldr (λ t rest, (t.1 * inject_Z (pauli_value t.2 x) + rest)%Q) 0%Q terms.

Definition energy (op : Operator) (x : list Z) : Q :=
  terms_value (paulis op) x.

Section Conflicts.
Context `{Countable E}.

(** The pairs of selected subsets that intersect, as the loops of
    [get_setpacking_qubitops] meet them. *)
Definition conflict (sol : list Z) (list_of_subsets : list (list E))
    (p : nat * nat) : Prop :=
  pair_intersects list_of_subsets p
  ∧ sol !! p.1 = Some 1%Z ∧ sol !! p.2 = Some 1%Z.

Definition conflicts (sol : list Z) (list_of_subsets : list (list E))
  : list (nat * nat) :=
  filter (conflict sol list_of_subsets) (loop_pairs (length list_of_subsets)).

(** What the docstring of [get_setpacking_qubitops] states of a selection:
    [A] times the number of intersecting pairs it selects, less the
    number of subsets it selects, with [A = 10]. *)
Definition packing_cost (sol : list Z) (list_of_subsets : list (list E)) : Z :=
  (10 * Z.of_nat (length (conflicts sol list_of_subsets))
   - Z.of_nat (length (selected sol (length list_of_subsets))))%Z.

End Conflicts.

(** * Part II: lemmas and theorems *)

(** ** The Hamiltonian of set packing *)

Section HamiltonianFacts.
Context `{Countable E}.

(** *** Arrays of zeros with a few ones *)

Lemma insert_one_indicator (n i : nat) (qs : list nat) :
  <[i:=1%Z]> ((λ k, if bool_decide (k ∈ qs) then 1%Z else 0%Z) <$> range n)
  = (λ k, if bool_decide (k ∈ i :: qs) then 1%Z else 0%Z) <$> range n.
Proof.
  apply list_eq; intros k. unfold range.
  rewrite list_lookup_insert, !list_lookup_fmap, length_fmap, length_seq.
  destruct (decide (k < n)) as [Hk | Hk].
  - rewrite lookup_seq_lt by done; simpl.
    case_decide as Hik.
    + destruct Hik as [-> _]. by rewrite bool_decide_eq_true_2 by set_solver.
    + assert (i ≠ k) as Hne by lia.
      f_equal. apply (f_equal (λ b : bool, if b then 1%Z else 0%Z)).
      apply bool_decide_ext. rewrite elem_of_cons.
      split; [by right | intros [Heq|Hin]; [congruence | done]].
  - rewrite lookup_seq_ge by lia; simpl. case_decide; [lia | done].
Qed.

Lemma np_zeros_indicator (n : nat) :
  np_zeros n = (λ k, if bool_decide (k ∈ @nil nat) then 1%Z else 0%Z) <$> range n.
Proof.
  apply list_eq; intros k. unfold np_zeros, range.
  rewrite list_lookup_fmap.
  destruct (decide (k < n)).
  - rewrite lookup_replicate_2, lookup_seq_lt by done.
    cbn [fmap option_fmap option_map]. by rewrite bool_decide_eq_false_2 by set_solver.
  - rewrite lookup_seq_ge by lia. simpl. by apply lookup_replicate_None; lia.
Qed.

Lemma indicator_ext (n : nat) (qs qs' : list nat) :
  (∀ k, k ∈ qs ↔ k ∈ qs') →
  z_term n qs = z_term n qs'.
Proof.
  intros Hq. unfold z_term. f_equal.
  apply list_fmap_ext; intros _ k _.
  apply (f_equal (λ b : bool, if b then 1%Z else 0%Z)).
  by apply bool_decide_ext.
Qed.

(** The label of [z_term n qs]: Z on the qubits of [qs], I elsewhere. *)
Lemma to_label_z_term (n : nat) (qs : list nat) :
  to_label (z_term n qs)
  = (λ k, if bool_decide (k ∈ qs) then PZ else PI) <$> range n.
Proof.
  unfold to_label, z_term; simpl. unfold range.
  generalize 0 as start.
  induction n as [|n IH]; intros start; [done|].
  simpl. rewrite IH. f_equal. by case_bool_decide.
Qed.


(** *** The loops in closed form *)

Lemma constraint_body_unfold (n : nat) (subsets : list (list E)) (i j : nat)
    (pl : list (Q * Pauli)) (sh : Q) :
  constraint_body n subsets i j (pl, sh)
  = if pair_intersects subsets (i, j)
    then (pl ++ penalty_terms n i j, (sh + 10 * 0.25)%Q)
    else (pl, sh).
Proof.
  unfold constraint_body, pair_intersects, penalty_terms; simpl.
  destruct (intersects _ _); [|done].
  rewrite <- !app_assoc; simpl.
  assert (Hw : np_zeros n = replicate n 0%Z) by done.
  assert (H1 : <[i:=1%Z]> (np_zeros n) = pauli_v (z_term n [i])).
  { rewrite np_zeros_indicator. apply insert_one_indicator. }
  assert (H2 : <[j:=1%Z]> (np_zeros n) = pauli_v (z_term n [j])).
  { rewrite np_zeros_indicator. apply insert_one_indicator. }
  assert (H3 : <[j:=1%Z]> (<[i:=1%Z]> (np_zeros n)) = pauli_v (z_term n [i; j])).
  { rewrite np_zeros_indicator, !insert_one_indicator.
    assert (Hswap : ∀ k, k ∈ [j; i] ↔ k ∈ [i; j]).
    { intros k. rewrite !elem_of_cons. tauto. }
    exact (f_equal pauli_v (indicator_ext n [j; i] [i; j] Hswap)). }
  rewrite H3, H1, H2. done.
Qed.

Lemma objective_body_unfold (n i : nat) (pl : list (Q * Pauli)) (sh : Q) :
  objective_body n i (pl, sh)
  = (pl ++ [((-0.5)%Q, z_term n [i])], (sh + -0.5)%Q).
Proof.
  assert (Hv : <[i:=1%Z]> (np_zeros n) = pauli_v (z_term n [i])).
  { rewrite np_zeros_indicator. apply insert_one_indicator. }
  unfold objective_body. by rewrite Hv.
Qed.

(** A nest of two [for] loops visits the pairs of [loop_pairs]. *)
Lemma constraint_pass_pairs (n : nat) (subsets : list (list E)) (acc : pauli_acc) :
  constraint_pass n subsets acc
  = fold_left (λ acc p, constraint_body n subsets p.1 p.2 acc) (loop_pairs n) acc.
Proof.
  unfold constraint_pass, loop_pairs.
  generalize (range n) as outer. intros outer. revert acc.
  induction outer as [|i outer IH]; intros acc; [done|].
  simpl. rewrite IH, fold_left_app. f_equal.
  generalize (range i) as inner. intros inner. revert acc.
  induction inner as [|j inner IHj]; intros acc; [done|].
  simpl. by rewrite IHj.
Qed.

Lemma Qnat_S (k : nat) : (Qnat (S k) == Qnat k + 1)%Q.
Proof.
  unfold Qnat. rewrite Nat2Z.inj_succ. unfold Z.succ.
  by rewrite inject_Z_plus.
Qed.

Lemma fold_constraint_body (n : nat) (subsets : list (list E))
    (ps : list (nat * nat)) (pl : list (Q * Pauli)) (sh : Q) :
  let r := fold_left (λ acc p, constraint_body n subsets p.1 p.2 acc) ps (pl, sh) in
  r.1 = pl ++ (ps ≫= pair_terms n subsets)
  ∧ (r.2 == sh + 2.5 * Qnat (length (filter (λ p, pair_intersects subsets p) ps)))%Q.
Proof.
  revert pl sh. induction ps as [|[i j] ps IH]; intros pl sh r.
  - split; [by rewrite app_nil_r|]. unfold Qnat; simpl. ring.
  - subst r. cbn [fold_left fst snd]. rewrite constraint_body_unfold.
    rewrite filter_cons, bind_cons. unfold pair_terms at 1.
    destruct (pair_intersects subsets (i, j)) eqn:Hij.
    + destruct (IH (pl ++ penalty_terms n i j) (sh + 10 * 0.25)%Q) as [IH1 IH2].
      split; [by rewrite IH1, <- app_assoc|].
      rewrite IH2. destruct (decide (Is_true true)) as [_|[]]; [|exact I].
      cbn [length].
      rewrite Qnat_S. ring.
    + destruct (IH pl sh) as [IH1 IH2].
      split; [exact IH1|]. rewrite IH2.
      destruct (decide (Is_true false)) as [[]|_]. reflexivity.
Qed.

Lemma fold_objective_body (n : nat) (idxs : list nat)
    (pl : list (Q * Pauli)) (sh : Q) :
  let r := fold_left (λ acc i, objective_body n i acc) idxs (pl, sh) in
  r.1 = pl ++ ((λ i, ((-0.5)%Q, z_term n [i])) <$> idxs)
  ∧ (r.2 == sh + -0.5 * Qnat (length idxs))%Q.
Proof.
  revert pl sh. induction idxs as [|i idxs IH]; intros pl sh r.
  - split; [by rewrite app_nil_r|]. unfold Qnat; simpl. ring.
  - subst r. cbn [fold_left]. rewrite objective_body_unfold.
    destruct (IH (pl ++ [((-0.5)%Q, z_term n [i])]) (sh + -0.5)%Q) as [IH1 IH2].
    split; [by rewrite IH1, <- app_assoc|].
    rewrite IH2. cbn [length]. rewrite Qnat_S. ring.
Qed.

(** *** The pairs the loops visit *)

Lemma elem_of_loop_pairs (n i j : nat) :
  (i, j) ∈ loop_pairs n ↔ j < i < n.
Proof.
  unfold loop_pairs, range. rewrite list_elem_of_bind. split.
  - intros (i' & Hj & Hi). apply list_elem_of_fmap in Hj as (j' & Heq & Hj).
    injection Heq as -> ->. apply elem_of_seq in Hj, Hi. lia.
  - intros Hij. exists i. split.
    + apply list_elem_of_fmap. exists j. split; [done|]. apply elem_of_seq. lia.
    + apply elem_of_seq. lia.
Qed.

Lemma elem_of_unordered_pairs (n i j : nat) :
  (i, j) ∈ unordered_pairs n ↔ i < j < n.
Proof.
  unfold unordered_pairs, range. rewrite list_elem_of_bind. split.
  - intros (i' & Hj & Hi). apply list_elem_of_fmap in Hj as (j' & Heq & Hj).
    injection Heq as -> ->. apply elem_of_seq in Hj, Hi. lia.
  - intros Hij. exists i. split.
    + apply list_elem_of_fmap. exists j. split; [done|]. apply elem_of_seq. lia.
    + apply elem_of_seq. lia.
Qed.

Lemma NoDup_pairs_of (inner : nat → list nat) (outer : list nat) :
  NoDup outer → (∀ i, NoDup (inner i)) →
  NoDup (i ← outer; (λ j, (i, j)) <$> inner i).
Proof.
  intros Ho Hi. apply NoDup_bind; [| |done].
  - intros i1 i2 [a b] _ _ H1 H2.
    apply list_elem_of_fmap in H1 as (j1 & Heq1 & _).
    apply list_elem_of_fmap in H2 as (j2 & Heq2 & _). congruence.
  - intros i _. apply NoDup_fmap_2; [|done]. intros j1 j2. congruence.
Qed.

Lemma loop_pairs_unordered (n : nat) :
  prod_swap <$> loop_pairs n ≡ₚ unordered_pairs n.
Proof.
  apply NoDup_Permutation.
  - apply NoDup_fmap_2; [intros [??] [??]; simpl; congruence|].
    apply NoDup_pairs_of; intros; apply NoDup_seq.
  - apply NoDup_pairs_of; intros; apply NoDup_seq.
  - intros [i j]. rewrite elem_of_unordered_pairs, list_elem_of_fmap. split.
    + intros ([a b] & Heq & Hab). apply elem_of_loop_pairs in Hab.
      injection Heq as -> ->. done.
    + intros Hij. exists (j, i). split; [done|]. by apply elem_of_loop_pairs.
Qed.

Lemma intersects_comm (L R : list E) : intersects L R = intersects R L.
Proof.
  unfold intersects. apply bool_decide_ext.
  by rewrite (comm_L (∩) (list_to_set L : gset E)).
Qed.

(** [set(L) & set(R)] is not empty exactly when the lists share an element. *)
Lemma intersects_spec (L R : list E) :
  intersects L R = true ↔ ∃ x, x ∈ L ∧ x ∈ R.
Proof.
  unfold intersects. rewrite bool_decide_eq_true. split.
  - intros Hne. apply set_choose_L in Hne as [x Hx]. exists x. set_solver.
  - intros (x & HL & HR). set_solver.
Qed.

Lemma filter_length_fmap {X Y : Type} (f : X → Y) (P : Y → Prop)
    `{!∀ y, Decision (P y)} (l : list X) :
  length (filter P (f <$> l)) = length (filter (P ∘ f) l).
Proof.
  induction l as [|x l IH]; [done|].
  rewrite fmap_cons, !filter_cons. simpl.
  destruct (decide (P (f x))); simpl; by rewrite IH.
Qed.

(** The loops meet every unordered pair once: the number of intersecting
    pairs they count is the number of unordered intersecting pairs. *)
Lemma loop_pairs_count (subsets : list (list E)) :
  length (filter (λ p, pair_intersects subsets p) (loop_pairs (length subsets)))
  = intersecting_pairs subsets.
Proof.
  unfold intersecting_pairs.
  rewrite <- (loop_pairs_unordered (length subsets)), filter_length_fmap.
  f_equal. apply list_filter_iff. intros [i j]. unfold pair_intersects; simpl.
  by rewrite intersects_comm.
Qed.

Lemma pair_terms_length (n : nat) (subsets : list (list E)) (ps : list (nat * nat)) :
  length (ps ≫= pair_terms n subsets)
  = 3 * length (filter (λ p, pair_intersects subsets p) ps).
Proof.
  induction ps as [|p ps IH]; [done|].
  rewrite bind_cons, length_app, IH, filter_cons. unfold pair_terms.
  destruct (pair_intersects subsets p).
  - destruct (decide (Is_true true)) as [_|[]]; [|exact I]. simpl. lia.
  - destruct (decide (Is_true false)) as [[]|_]. simpl. lia.
Qed.

Lemma constraint_pass_closed (subsets : list (list E)) :
  let acc := constraint_pass (length subsets) subsets ([], 0%Q) in
  acc.1 = loop_pairs (length subsets) ≫= pair_terms (length subsets) subsets
  ∧ (acc.2 == 2.5 * Qnat (length (filter (λ p, pair_intersects subsets p)
                                         (loop_pairs (length subsets)))))%Q.
Proof.
  intros acc. subst acc. rewrite constraint_pass_pairs.
  destruct (fold_constraint_body (length subsets) subsets (loop_pairs (length subsets)) [] 0%Q)
    as [Hterms Hshift].
  split; [exact Hterms|]. rewrite Hshift. ring.
Qed.

Lemma get_setpacking_qubitops_closed (subsets : list (list E)) :
  let acc := constraint_pass (length subsets) subsets ([], 0%Q) in
  let r := get_setpacking_qubitops subsets in
  paulis r.1 = acc.1 ++ ((λ i, ((-0.5)%Q, z_term (length subsets) [i])) <$> range (length subsets))
  ∧ (r.2 == acc.2 + -0.5 * Qnat (length subsets))%Q.
Proof.
  intros acc r. subst r. unfold get_setpacking_qubitops. fold acc.
  destruct acc as [pl sh].
  pose proof (fold_objective_body (length subsets) (range (length subsets)) pl sh)
    as [Hobj Hsh].
  unfold objective_pass.
  destruct (fold_left _ (range (length subsets)) _) as [pl' sh'].
  simpl in *. subst pl'. split; [done|].
  rewrite Hsh. unfold range. by rewrite length_seq.
Qed.

End HamiltonianFacts.

(** ** The terms the operator holds *)

(** Merging keeps the labels in the order of their first occurrence,
    each once. *)
Lemma merge_term_labels (t : Q * Pauli) (new_paulis : list (Q * Pauli)) :
  (λ u, to_label u.2) <$> merge_term t new_paulis
  = if decide (to_label t.2 ∈ (λ u, to_label u.2) <$> new_paulis)
    then (λ u, to_label u.2) <$> new_paulis
    else ((λ u, to_label u.2) <$> new_paulis) ++ [to_label t.2].
Proof.
  induction new_paulis as [|u rest IH]; cbn [merge_term].
  - rewrite decide_False; [done|]. by intros ?%elem_of_nil.
  - destruct (decide (to_label u.2 = to_label t.2)) as [Heq|Hne].
    + rewrite decide_True; [done|]. rewrite fmap_cons, Heq. left.
    + rewrite !fmap_cons, IH.
      destruct (decide (to_label t.2 ∈ (λ u, to_label u.2) <$> rest)) as [Hin|Hin].
      * rewrite decide_True; [done|]. by right.
      * rewrite decide_False; [done|].
        intros [?|?]%elem_of_cons; [congruence | done].
Qed.

Lemma simplify_labels (terms new_paulis : list (Q * Pauli)) :
  NoDup ((λ u, to_label u.2) <$> new_paulis) →
  let r := fold_left (λ new_paulis t, merge_term t new_paulis) terms new_paulis in
  NoDup ((λ u, to_label u.2) <$> r)
  ∧ ∀ x, x ∈ (λ u, to_label u.2) <$> r
         ↔ x ∈ (λ u, to_label u.2) <$> new_paulis
           ∨ x ∈ (λ u, to_label u.2) <$> terms.
Proof.
  revert new_paulis. induction terms as [|t terms IH]; intros new_paulis Hnd r.
  - subst r. cbn [fold_left]. split; [done|]. intros x. rewrite fmap_nil.
    split; [by left | intros [?|?%elem_of_nil]; done].
  - subst r. cbn [fold_left].
    assert (Hnd' : NoDup ((λ u, to_label u.2) <$> merge_term t new_paulis)).
    { rewrite merge_term_labels. destruct (decide _) as [Hin|Hin]; [done|].
      apply NoDup_app. split; [done|]. split; [|apply NoDup_singleton].
      intros x Hx ->%list_elem_of_singleton. done. }
    destruct (IH (merge_term t new_paulis) Hnd') as [IH1 IH2].
    split; [exact IH1|]. intros x. rewrite IH2, merge_term_labels, fmap_cons.
    destruct (decide _) as [Hin|Hin].
    + rewrite elem_of_cons. split; [intros [?|?]; auto|].
      intros [?|[->|?]]; auto.
    + rewrite elem_of_app, list_elem_of_singleton, elem_of_cons.
      split; [intros [[?|?]|?]; auto | intros [?|[?|?]]; auto].
Qed.

Lemma merge_term_Forall (P : Pauli → Prop) (t : Q * Pauli)
    (new_paulis : list (Q * Pauli)) :
  P t.2 → Forall (λ u, P u.2) new_paulis →
  Forall (λ u, P u.2) (merge_term t new_paulis).
Proof.
  intros Ht. induction 1 as [|u rest Hu Hrest IH]; cbn [merge_term].
  - by constructor.
  - destruct (decide _); constructor; done.
Qed.

(** The Paulis of the operator are Paulis of the list it is given. *)
Lemma simplify_paulis_Forall (P : Pauli → Prop) (terms : list (Q * Pauli)) :
  Forall (λ u, P u.2) terms → Forall (λ u, P u.2) (simplify_paulis terms).
Proof.
  unfold simplify_paulis. intros Hterms.
  assert (Hnil : Forall (λ u : Q * Pauli, P u.2) []) by constructor.
  revert Hnil. generalize (@nil (Q * Pauli)) as new_paulis.
  induction Hterms as [|t terms Ht _ IH]; intros new_paulis Hacc; [done|].
  cbn [fold_left]. apply IH. by apply merge_term_Forall.
Qed.

(** A list without repetition that holds the labels of [terms] has as
    many entries as the operator has terms. *)
Lemma simplify_paulis_length (terms : list (Q * Pauli))
    (labels : list (list pauli_letter)) :
  NoDup labels →
  (∀ x, x ∈ labels ↔ x ∈ (λ u, to_label u.2) <$> terms) →
  length (simplify_paulis terms) = length labels.
Proof.
  intros Hnd Hlabels.
  destruct (simplify_labels terms [] (NoDup_nil_2)) as [Hnd' Hin].
  cbn zeta in Hnd', Hin. fold (simplify_paulis terms) in Hnd', Hin.
  rewrite <- (length_fmap (λ u, to_label u.2) (simplify_paulis terms)).
  apply Permutation_length, NoDup_Permutation; [done..|].
  intros x. rewrite Hin, Hlabels, fmap_nil.
  split; [intros [?%elem_of_nil|?]; done | by right].
Qed.

(** Terms of Z on different sets of qubits have different labels. *)
Lemma z_term_label_inj (n : nat) (qs qs' : list nat) (k : nat) :
  to_label (z_term n qs) = to_label (z_term n qs') →
  k < n → (k ∈ qs ↔ k ∈ qs').
Proof.
  rewrite !to_label_z_term. intros Heq Hk.
  apply (f_equal (λ l, l !! k)) in Heq. unfold range in Heq.
  rewrite !list_lookup_fmap, lookup_seq_lt in Heq by done. simpl in Heq.
  destruct (bool_decide (k ∈ qs)) eqn:H1, (bool_decide (k ∈ qs')) eqn:H2;
    try discriminate.
  - apply bool_decide_eq_true in H1, H2. done.
  - apply bool_decide_eq_false in H1, H2. done.
Qed.

Section OperatorTerms.
Context `{Countable E}.

(** The labels of the terms [get_setpacking_qubitops] appends: one for
    every intersecting pair and one for every subset. *)
Lemma setpacking_labels (subsets : list (list E)) :
  let n := length subsets in
  let labels :=
    ((λ p : nat * nat, to_label (z_term n [p.1; p.2]))
       <$> filter (λ p, pair_intersects subsets p) (loop_pairs n))
    ++ ((λ i, to_label (z_term n [i])) <$> range n) in
  NoDup labels
  ∧ ∀ x, x ∈ labels
         ↔ x ∈ (λ u : Q * Pauli, to_label u.2)
               <$> (loop_pairs n ≫= pair_terms n subsets)
                   ++ ((λ i, ((-0.5)%Q, z_term n [i])) <$> range n).
Proof.
  intros n labels. subst labels. split.
  - apply NoDup_app. split; [|split].
    + apply NoDup_fmap_2_strong.
      * intros [i j] [i' j'] Hp Hp' Heq. cbn [fst snd] in Heq.
        apply list_elem_of_filter in Hp as [_ Hp], Hp' as [_ Hp'].
        apply elem_of_loop_pairs in Hp, Hp'.
        pose proof (z_term_label_inj n _ _ i Heq ltac:(lia)) as Hi.
        pose proof (z_term_label_inj n _ _ j Heq ltac:(lia)) as Hj.
        pose proof (z_term_label_inj n _ _ i' Heq ltac:(lia)) as Hi'.
        rewrite !elem_of_cons in Hi, Hj, Hi'.
        assert (i = i' ∨ i = j') as Hi1.
        { destruct (proj1 Hi (or_introl eq_refl)) as [?|[?|?%elem_of_nil]]; auto; done. }
        assert (j = i' ∨ j = j') as Hj1.
        { destruct (proj1 Hj (or_intror (or_introl eq_refl)))
            as [?|[?|?%elem_of_nil]]; auto; done. }
        assert (i' = i ∨ i' = j) as Hi2.
        { destruct (proj2 Hi' (or_introl eq_refl)) as [?|[?|?%elem_of_nil]]; auto; done. }
        f_equal; lia.
      * apply NoDup_filter, NoDup_pairs_of; intros; apply NoDup_seq.
    + intros x Hx Hx'.
      apply list_elem_of_fmap in Hx as ([i j] & -> & Hp).
      apply list_elem_of_fmap in Hx' as (k & Heq & Hk).
      apply list_elem_of_filter in Hp as [_ Hp]. apply elem_of_loop_pairs in Hp.
      apply elem_of_seq in Hk. cbn [fst snd] in Heq.
      pose proof (z_term_label_inj n _ _ i Heq ltac:(lia)) as Hi.
      pose proof (z_term_label_inj n _ _ j Heq ltac:(lia)) as Hj.
      rewrite !elem_of_cons in Hi, Hj.
      destruct (proj1 Hi (or_introl eq_refl)) as [?|?%elem_of_nil]; [|done].
      destruct (proj1 Hj (or_intror (or_introl eq_refl))) as [?|?%elem_of_nil];
        [|done].
      lia.
    + apply NoDup_fmap_2_strong; [|apply NoDup_seq].
      intros i i' Hi Hi' Heq. apply elem_of_seq in Hi, Hi'.
      pose proof (z_term_label_inj n _ _ i Heq ltac:(lia)) as Hin.
      rewrite !list_elem_of_singleton in Hin. by apply Hin.
  - intros x. rewrite fmap_app, !elem_of_app. split.
    + intros [Hx|Hx].
      * left. apply list_elem_of_fmap in Hx as ([i j] & -> & Hp).
        apply list_elem_of_filter in Hp as [Hint Hp].
        apply list_elem_of_fmap. exists ((10 * 0.25)%Q, z_term n [i; j]).
        split; [done|]. apply list_elem_of_bind. exists (i, j). split; [|done].
        unfold pair_terms. apply Is_true_true in Hint. rewrite Hint. left.
      * right. apply list_elem_of_fmap in Hx as (i & -> & Hi).
        rewrite <- list_fmap_compose. apply list_elem_of_fmap. by exists i.
    + intros [Hx|Hx].
      * apply list_elem_of_fmap in Hx as (t & -> & Ht).
        apply list_elem_of_bind in Ht as ([i j] & Ht & Hp).
        pose proof Hp as Hij. apply elem_of_loop_pairs in Hij.
        unfold pair_terms in Ht.
        destruct (pair_intersects subsets (i, j)) eqn:Hint;
          [|by apply elem_of_nil in Ht].
        unfold penalty_terms in Ht. cbn [fst snd] in Ht.
        rewrite !elem_of_cons in Ht.
        destruct Ht as [->|[->|[->|Ht]]]; [| | |by apply elem_of_nil in Ht].
        -- left. apply list_elem_of_fmap. exists (i, j). split; [done|].
           apply list_elem_of_filter. split; [|done]. by rewrite Hint.
        -- right. apply list_elem_of_fmap. exists i. split; [done|].
           apply elem_of_seq. lia.
        -- right. apply list_elem_of_fmap. exists j. split; [done|].
           apply elem_of_seq. lia.
      * right. rewrite <- list_fmap_compose in Hx.
        apply list_elem_of_fmap in Hx as (i & -> & Hi).
        apply list_elem_of_fmap. by exists i.
Qed.

(** Merged, the terms are one for every intersecting pair and one for
    every subset. *)
Lemma operator_terms_length (subsets : list (list E)) :
  length (operator_terms (get_setpacking_qubitops subsets).1)
  = intersecting_pairs subsets + length subsets.
Proof.
  destruct (get_setpacking_qubitops_closed subsets) as [Hterms _].
  destruct (constraint_pass_closed subsets) as [Hterms' _].
  cbn zeta in Hterms, Hterms'.
  destruct (setpacking_labels subsets) as [Hnd Hin]. cbn zeta in Hnd, Hin.
  unfold operator_terms. rewrite Hterms, Hterms'.
  rewrite (simplify_paulis_length _ _ Hnd Hin).
  rewrite length_app, !length_fmap, loop_pairs_count. unfold range.
  by rewrite length_seq.
Qed.

End OperatorTerms.

(** C1.  The nested loops of [get_setpacking_qubitops] visit the pairs
    [(i, j)] with [i] from 0 to [n-1] and [j] from 0 to [i-1], in that
    order.  A pair whose subsets intersect appends three terms, in the
    order Z_i Z_j, Z_i, Z_j, each with the coefficient [10 * 0.25], which
    is 2.5, and adds 2.5 to the shift; a pair whose subsets are disjoint
    changes neither the list nor the shift.  The terms of the constraint
    pairs open the list of the operator that is returned. *)
Theorem get_setpacking_qubitops_constraint_terms `{Countable E}
    (list_of_subsets : list (list E)) :
  let n := length list_of_subsets in
  let start : pauli_acc := ([], 0%Q) in
  (10 * 0.25 == 2.5)%Q
  ∧ constraint_pass n list_of_subsets start
    = fold_left (λ acc p, constraint_body n list_of_subsets p.1 p.2 acc)
                (loop_pairs n) start
  ∧ (∀ i j, (i, j) ∈ loop_pairs n ↔ j < i < n)
  ∧ (∀ i j pauli_list shift,
       constraint_body n list_of_subsets i j (pauli_list, shift)
       = if intersects (list_of_subsets !!! i) (list_of_subsets !!! j)
         then (pauli_list ++ [ ((10 * 0.25)%Q, z_term n [i; j]);
                               ((10 * 0.25)%Q, z_term n [i]);
                               ((10 * 0.25)%Q, z_term n [j]) ],
               (shift + 10 * 0.25)%Q)
         else (pauli_list, shift))
  ∧ (∀ qs, to_label (z_term n qs)
           = (λ k, if bool_decide (k ∈ qs) then PZ else PI) <$> range n)
  ∧ (constraint_pass n list_of_subsets start).1
    = loop_pairs n ≫= pair_terms n list_of_subsets
  ∧ ((constraint_pass n list_of_subsets start).2
     == 2.5 * Qnat (length (filter (λ p, pair_intersects list_of_subsets p)
                                   (loop_pairs n))))%Q
  ∧ ∃ objective_terms,
      paulis (get_setpacking_qubitops list_of_subsets).1
      = (loop_pairs n ≫= pair_terms n list_of_subsets) ++ objective_terms.
Proof.
  intros n start.
  destruct (constraint_pass_closed list_of_subsets) as [Hterms Hshift].
  destruct (get_setpacking_qubitops_closed list_of_subsets) as [Hobj _].
  split; [reflexivity|].
  split; [apply constraint_pass_pairs|].
  split; [apply elem_of_loop_pairs|].
  split; [intros; apply constraint_body_unfold|].
  split; [apply to_label_z_term|].
  split; [exact Hterms|].
  split; [exact Hshift|].
  rewrite Hobj, Hterms. eauto.
Qed.

(** C2.  After the terms of the constraint pairs, [get_setpacking_qubitops]
    appends for every qubit [i] from 0 to [n-1] one term Z_i with the
    coefficient -0.5, and adds -0.5 to the shift for each of them. *)
Theorem get_setpacking_qubitops_objective_terms `{Countable E}
    (list_of_subsets : list (list E)) :
  let n := length list_of_subsets in
  let acc := constraint_pass n list_of_subsets ([], 0%Q) in
  let r := get_setpacking_qubitops list_of_subsets in
  (∀ i pauli_list shift,
     objective_body n i (pauli_list, shift)
     = (pauli_list ++ [((-0.5)%Q, z_term n [i])], (shift + -0.5)%Q))
  ∧ r = (let '(pauli_list, shift) := objective_pass n acc in
         (mkOperator pauli_list, shift))
  ∧ paulis r.1 = acc.1 ++ ((λ i, ((-0.5)%Q, z_term n [i])) <$> range n)
  ∧ (r.2 == acc.2 + -0.5 * Qnat n)%Q.
Proof.
  intros n acc r.
  destruct (get_setpacking_qubitops_closed list_of_subsets) as [Hobj Hsh].
  split; [apply objective_body_unfold|].
  split; [reflexivity|].
  split; [exact Hobj | exact Hsh].
Qed.

(** The list handed to [Operator] and the operator made of it differ on
    the instance of the specification: of the six terms, Z_1 and Z_0 come
    twice and are merged, which leaves four. *)
Lemma get_setpacking_qubitops_merges_terms :
  intersecting_pairs example_subsets = 1
  ∧ length example_subsets = 3
  ∧ length (operator_terms (get_setpacking_qubitops example_subsets).1) = 4
  ∧ length (operator_terms (get_setpacking_qubitops example_subsets).1)
    ≠ 3 * 1 + 3.
Proof. by vm_compute. Qed.

(** C3, as the code has it.  With [p] the number of unordered pairs of
    subsets that intersect, [get_setpacking_qubitops] hands [3 * p + n]
    terms to [Operator], whose constructor merges the terms with the same
    Pauli: the operator it returns has [p + n] terms.  The shift is
    [2.5 * p - 0.5 * n].  For the empty list the operator has no term and
    the shift is 0.  For [[{1,2}, {2,3}, {4,5}]] there is one intersecting
    pair; the terms handed over have the coefficients 2.5, 2.5, 2.5, -0.5,
    -0.5, -0.5, the operator has the four terms Z_1 Z_0, Z_1, Z_0, Z_2
    with the coefficients 2.5, 2, 2, -0.5, and the shift is 1. *)
Theorem get_setpacking_qubitops_size_and_shift `{Countable E}
    (list_of_subsets : list (list E)) :
  let n := length list_of_subsets in
  let p := intersecting_pairs list_of_subsets in
  let r := get_setpacking_qubitops list_of_subsets in
  length (paulis r.1) = 3 * p + n
  ∧ length (operator_terms r.1) = p + n
  ∧ (r.2 == 2.5 * Qnat p - 0.5 * Qnat n)%Q
  ∧ get_setpacking_qubitops (@nil (list E)) = (mkOperator [], 0%Q)
  ∧ operator_terms (get_setpacking_qubitops (@nil (list E))).1 = []
  ∧ intersecting_pairs example_subsets = 1
  ∧ paulis (get_setpacking_qubitops example_subsets).1
    = [ ((10 * 0.25)%Q, z_term 3 [1; 0]);
        ((10 * 0.25)%Q, z_term 3 [1]);
        ((10 * 0.25)%Q, z_term 3 [0]);
        ((-0.5)%Q, z_term 3 [0]);
        ((-0.5)%Q, z_term 3 [1]);
        ((-0.5)%Q, z_term 3 [2]) ]
  ∧ Forall2 (λ t u : Q * Pauli, (t.1 == u.1)%Q ∧ t.2 = u.2)
      (operator_terms (get_setpacking_qubitops example_subsets).1)
      [ (2.5%Q, z_term 3 [1; 0]);
        (2%Q, z_term 3 [1]);
        (2%Q, z_term 3 [0]);
        ((-0.5)%Q, z_term 3 [2]) ]
  ∧ ((get_setpacking_qubitops example_subsets).2 == 1.0)%Q.
Proof.
  intros n p r.
  destruct (constraint_pass_closed list_of_subsets) as [Hterms Hshift].
  destruct (get_setpacking_qubitops_closed list_of_subsets) as [Hobj Hsh].
  rewrite loop_pairs_count in Hshift.
  split.
  { subst r. rewrite Hobj, Hterms, length_app, length_fmap, pair_terms_length.
    unfold range. rewrite length_seq. by rewrite loop_pairs_count. }
  split; [apply operator_terms_length|].
  split; [subst r; rewrite Hsh, Hshift; subst p n; ring|].
  split; [reflexivity|].
  split; [reflexivity|].
  split; [by vm_compute|].
  split; [by vm_compute|].
  split; [|by vm_compute].
  repeat (constructor; [split; [by vm_compute | by vm_compute]|]).
  constructor.
Qed.

(** ** Checking that the selected subsets are disjoint *)

Section CheckDisjointFacts.
Context `{Countable E}.

Lemma intersects_false (L R : list E) :
  intersects L R = false ↔ disjoint_subsets L R.
Proof.
  unfold intersects, disjoint_subsets. rewrite bool_decide_eq_false.
  split; [apply dec_stable | intros Heq Hne; by apply Hne].
Qed.

Lemma first_return_None {X R : Type} (body : X → option R) (xs : list X) :
  first_return body xs = None ↔ ∀ x, x ∈ xs → body x = None.
Proof.
  induction xs as [|x xs IH]; simpl.
  - split; [intros _ x Hx; by apply elem_of_nil in Hx | done].
  - destruct (body x) as [r|] eqn:Hb.
    + split; [done|]. intros Hall. specialize (Hall x (list_elem_of_here _ _)).
      congruence.
    + rewrite IH. split.
      * intros Hall y Hy. apply elem_of_cons in Hy as [->|Hy]; auto.
      * intros Hall y Hy. apply Hall. by apply list_elem_of_further.
Qed.

Lemma first_return_Some {X R : Type} (body : X → option R) (xs : list X) (r : R) :
  first_return body xs = Some r → ∃ x, x ∈ xs ∧ body x = Some r.
Proof.
  induction xs as [|x xs IH]; simpl; [done|].
  destruct (body x) as [r'|] eqn:Hb.
  - intros [= ->]. exists x. split; [apply list_elem_of_here | done].
  - intros Hr. destruct (IH Hr) as (y & Hy & Hby).
    exists y. split; [by apply list_elem_of_further | done].
Qed.

(** The loop nest answers [True] exactly when no two positions of the
    list hold intersecting subsets. *)
Lemma no_overlap_spec (sel : list (list E)) :
  no_overlap sel = true
  ↔ ∀ a b, b < a < length sel → intersects (sel !!! a) (sel !!! b) = false.
Proof.
  unfold no_overlap, range.
  destruct (first_return _ (seq 0 (length sel))) as [r|] eqn:Hout.
  - apply first_return_Some in Hout as (a & Ha & Hin).
    apply first_return_Some in Hin as (b & Hb & Hbody).
    apply elem_of_seq in Ha, Hb.
    destruct (intersects (sel !!! a) (sel !!! b)) eqn:Hab; [|done].
    injection Hbody as <-. split; [done|].
    intros Hall. rewrite Hall in Hab by lia. done.
  - split; [|done]. intros _ a b Hab.
    rewrite first_return_None in Hout.
    specialize (Hout a). rewrite elem_of_seq in Hout.
    specialize (Hout ltac:(lia)). rewrite first_return_None in Hout.
    specialize (Hout b). rewrite elem_of_seq in Hout.
    specialize (Hout ltac:(lia)). simpl in Hout.
    by destruct (intersects (sel !!! a) (sel !!! b)).
Qed.

Lemma select_body_in_range (sol : list Z) (subsets : list (list E))
    (acc : list (list E)) (i : nat) (v : Z) :
  sol !! i = Some v →
  select_body sol subsets acc i
  = Ok (if Z.eqb v 1 then acc ++ [subsets !!! i] else acc).
Proof.
  intros Hv. unfold select_body, getitem. rewrite Hv. simpl.
  by destruct (Z.eqb v 1).
Qed.

Lemma select_body_past_end (sol : list Z) (subsets : list (list E))
    (acc : list (list E)) (i : nat) :
  length sol ≤ i →
  select_body sol subsets acc i = Raise IndexError.
Proof.
  intros Hi. unfold select_body, getitem.
  by rewrite (lookup_ge_None_2 sol i) by lia.
Qed.

Lemma select_loop_ok (sol : list Z) (subsets : list (list E)) (a k : nat)
    (acc : list (list E)) :
  a + k ≤ length sol →
  for_each (select_body sol subsets) (seq a k) acc
  = Ok (acc ++ ((λ i, subsets !!! i)
                <$> filter (λ i, sol !! i = Some 1%Z) (seq a k))).
Proof.
  revert a acc. induction k as [|k IH]; intros a acc Hlen; cbn [seq for_each].
  - by rewrite app_nil_r.
  - destruct (lookup_lt_is_Some_2 sol a ltac:(lia)) as [v Hv].
    rewrite (select_body_in_range _ _ _ _ _ Hv).
    cbn [mbind result_bind]. rewrite filter_cons, IH by lia.
    destruct (Z.eqb_spec v 1) as [->|Hne].
    + rewrite decide_True by done. by rewrite fmap_cons, <- app_assoc.
    + by rewrite decide_False by congruence.
Qed.

Lemma select_loop_short (sol : list Z) (subsets : list (list E)) (a k : nat)
    (acc : list (list E)) :
  a ≤ length sol < a + k →
  for_each (select_body sol subsets) (seq a k) acc = Raise IndexError.
Proof.
  revert a acc. induction k as [|k IH]; intros a acc Hlen; [lia|].
  cbn [seq for_each].
  destruct (decide (a < length sol)) as [Hlt|Hge].
  - destruct (lookup_lt_is_Some_2 sol a Hlt) as [v Hv].
    rewrite (select_body_in_range _ _ _ _ _ Hv).
    cbn [mbind result_bind]. apply IH. lia.
  - by rewrite select_body_past_end by lia.
Qed.

Lemma select_subsets_ok (sol : list Z) (subsets : list (list E)) :
  length subsets ≤ length sol →
  select_subsets sol subsets = Ok ((λ i, subsets !!! i) <$> selected sol (length subsets)).
Proof.
  intros Hlen. unfold select_subsets, selected, range.
  by rewrite (select_loop_ok sol subsets 0 (length subsets) []).
Qed.

Lemma select_subsets_short (sol : list Z) (subsets : list (list E)) :
  length sol < length subsets →
  select_subsets sol subsets = Raise IndexError.
Proof.
  intros Hlen. unfold select_subsets, range.
  apply (select_loop_short sol subsets 0 (length subsets) []). lia.
Qed.

Lemma elem_of_selected (sol : list Z) (n i : nat) :
  i ∈ selected sol n ↔ i < n ∧ sol !! i = Some 1%Z.
Proof.
  unfold selected, range. rewrite list_elem_of_filter, elem_of_seq.
  split; intros [??]; split; done || lia.
Qed.

Lemma NoDup_selected (sol : list Z) (n : nat) : NoDup (selected sol n).
Proof. apply NoDup_filter, NoDup_seq. Qed.

(** With an entry of [sol] for every subset, the answer is [True] exactly
    when any two distinct selected subsets are disjoint. *)
Lemma check_disjoint_ok (sol : list Z) (subsets : list (list E)) :
  length subsets ≤ length sol →
  ∃ b, check_disjoint sol subsets = Ok b
       ∧ (b = true ↔
          ∀ i j, i < length subsets → j < length subsets → i ≠ j →
                 sol !! i = Some 1%Z → sol !! j = Some 1%Z →
                 disjoint_subsets (subsets !!! i) (subsets !!! j)).
Proof.
  intros Hlen. unfold check_disjoint. rewrite select_subsets_ok by done.
  eexists. split; [reflexivity|].
  set (idx := selected sol (length subsets)).
  assert (Hpos : ∀ a, a < length idx →
            ∃ i, idx !! a = Some i
                 ∧ ((λ i, subsets !!! i) <$> idx) !!! a = subsets !!! i).
  { intros a Ha. destruct (lookup_lt_is_Some_2 idx a Ha) as [i Hi].
    exists i. split; [done|]. apply list_lookup_total_correct.
    by rewrite list_lookup_fmap, Hi. }
  rewrite no_overlap_spec, length_fmap. split.
  - intros Hall i j Hi Hj Hne Hsi Hsj.
    assert (Hini : i ∈ idx) by (by apply elem_of_selected).
    assert (Hinj : j ∈ idx) by (by apply elem_of_selected).
    apply list_elem_of_lookup in Hini as [a Ha], Hinj as [b Hb].
    pose proof (lookup_lt_Some _ _ _ Ha) as Hla.
    pose proof (lookup_lt_Some _ _ _ Hb) as Hlb.
    destruct (Hpos a Hla) as (i' & Ha' & Hea).
    destruct (Hpos b Hlb) as (j' & Hb' & Heb).
    assert (i' = i) as -> by congruence. assert (j' = j) as -> by congruence.
    assert (a ≠ b) by (intros ->; congruence).
    apply intersects_false.
    destruct (decide (b < a)) as [Hba|Hba].
    + rewrite <- Hea, <- Heb. apply Hall. lia.
    + rewrite intersects_comm, <- Hea, <- Heb. apply Hall. lia.
  - intros Hall a b Hab.
    destruct (Hpos a ltac:(lia)) as (i & Ha & ->).
    destruct (Hpos b ltac:(lia)) as (j & Hb & ->).
    apply intersects_false.
    pose proof (list_elem_of_lookup_2 _ _ _ Ha) as Hi.
    pose proof (list_elem_of_lookup_2 _ _ _ Hb) as Hj.
    apply elem_of_selected in Hi as [??], Hj as [??].
    apply Hall; try done.
    intros ->. pose proof (NoDup_lookup _ _ _ _ (NoDup_selected sol (length subsets)) Ha Hb).
    lia.
Qed.

Lemma check_disjoint_short (sol : list Z) (subsets : list (list E)) :
  length sol < length subsets →
  check_disjoint sol subsets = Raise IndexError.
Proof.
  intros Hlen. unfold check_disjoint. by rewrite select_subsets_short.
Qed.

(** At most one selected subset: nothing to compare. *)
Lemma check_disjoint_few (sol : list Z) (subsets : list (list E)) :
  length subsets ≤ length sol →
  length (selected sol (length subsets)) ≤ 1 →
  check_disjoint sol subsets = Ok true.
Proof.
  intros Hlen Hfew. unfold check_disjoint. rewrite select_subsets_ok by done.
  simpl. f_equal. apply no_overlap_spec. rewrite length_fmap. lia.
Qed.

Lemma filter_seq_agree (P Q : nat → Prop) `{!∀ i, Decision (P i)}
    `{!∀ i, Decision (Q i)} (a k : nat) :
  (∀ i, a ≤ i < a + k → (P i ↔ Q i)) →
  filter P (seq a k) = filter Q (seq a k).
Proof.
  revert a. induction k as [|k IH]; intros a Hagree; [done|].
  cbn [seq]. rewrite !filter_cons, (IH (S a)) by (intros; apply Hagree; lia).
  destruct (decide (P a)) as [HP|HP], (decide (Q a)) as [HQ|HQ]; try done.
  - apply Hagree in HP; [done | lia].
  - apply Hagree in HQ; [done | lia].
Qed.

Lemma selected_agree (sol1 sol2 : list Z) (n : nat) :
  (∀ i, i < n → (sol1 !! i = Some 1%Z ↔ sol2 !! i = Some 1%Z)) →
  selected sol1 n = selected sol2 n.
Proof.
  intros Hagree. unfold selected, range.
  apply filter_seq_agree. intros i Hi. apply Hagree. lia.
Qed.

End CheckDisjointFacts.

(** The examples of section 8 of the specification. *)
Example check_disjoint_example_true :
  check_disjoint [1; 0; 1]%Z example_subsets = Ok true.
Proof. by vm_compute. Qed.

Example check_disjoint_example_false :
  check_disjoint [1; 1; 0]%Z example_subsets = Ok false.
Proof. by vm_compute. Qed.

Example check_disjoint_example_none :
  check_disjoint [0; 0; 0]%Z example_subsets = Ok true.
Proof. by vm_compute. Qed.

(** C5, as the code has it.  When [sol] has an entry for every subset,
    [check_disjoint] raises nothing and answers [True] exactly when any
    two distinct subsets selected by [sol[i] == 1] are disjoint; in
    particular it answers [True] when at most one subset is selected. *)
Theorem check_disjoint_pairwise_disjoint `{Countable E}
    (sol : list Z) (list_of_subsets : list (list E)) :
  length list_of_subsets ≤ length sol →
  let n := length list_of_subsets in
  ∃ b, check_disjoint sol list_of_subsets = Ok b
       ∧ (b = true ↔
          ∀ i j, i < n → j < n → i ≠ j →
                 sol !! i = Some 1%Z → sol !! j = Some 1%Z →
                 disjoint_subsets (list_of_subsets !!! i)
                                  (list_of_subsets !!! j))
       ∧ (length (selected sol n) ≤ 1 → b = true).
Proof.
  intros Hlen n.
  destruct (check_disjoint_ok sol list_of_subsets Hlen) as (b & Hb & Hiff).
  exists b. split; [done|]. split; [done|].
  intros Hfew. pose proof (check_disjoint_few sol list_of_subsets Hlen Hfew).
  congruence.
Qed.

Lemma check_disjoint_pairwise_disjoint_witness :
  length example_subsets ≤ length [1; 0; 1]%Z
  ∧ ∃ b, check_disjoint [1; 0; 1]%Z example_subsets = Ok b
         ∧ (b = true ↔
            ∀ i j, i < 3 → j < 3 → i ≠ j →
                   [1; 0; 1]%Z !! i = Some 1%Z → [1; 0; 1]%Z !! j = Some 1%Z →
                   disjoint_subsets (example_subsets !!! i)
                                    (example_subsets !!! j))
         ∧ (length (selected [1; 0; 1]%Z 3) ≤ 1 → b = true).
Proof.
  split; [simpl; lia|].
  apply (check_disjoint_pairwise_disjoint [1; 0; 1]%Z example_subsets).
  simpl; lia.
Defined.

(** C5, as the specification states it, fails: a [sol] shorter than the
    list of subsets makes [sol[i]] raise [IndexError]. *)
Lemma check_disjoint_raises_on_short_sol :
  check_disjoint [1; 0]%Z example_subsets = Raise IndexError
  ∧ ¬ (∀ (sol : list Z) (list_of_subsets : list (list Z)),
         ∃ b, check_disjoint sol list_of_subsets = Ok b).
Proof.
  assert (Hraise : check_disjoint [1; 0]%Z example_subsets = Raise IndexError)
    by (by vm_compute).
  split; [done|].
  intros Hall. destruct (Hall [1; 0]%Z example_subsets) as [b Hb].
  congruence.
Qed.

(** C7.  [get_solution] is the elementwise complement [1 - x], and applying
    it twice gives the vector back. *)
Theorem get_solution_involutive (x : list Z) :
  get_solution x = (λ v, (1 - v)%Z) <$> x
  ∧ length (get_solution x) = length x
  ∧ (∀ i, get_solution x !! i = (λ v, (1 - v)%Z) <$> x !! i)
  ∧ (∀ i, x !! i = Some 0%Z → get_solution x !! i = Some 1%Z)
  ∧ (∀ i, x !! i = Some 1%Z → get_solution x !! i = Some 0%Z)
  ∧ (Forall binary x → Forall binary (get_solution x))
  ∧ get_solution (get_solution x) = x.
Proof.
  unfold get_solution.
  assert (Hlook : ∀ i, ((λ v, (1 - v)%Z) <$> x) !! i = (λ v, (1 - v)%Z) <$> x !! i)
    by (intros i; apply list_lookup_fmap).
  split; [done|]. split; [apply length_fmap|]. split; [done|].
  split; [by intros i Hi; rewrite Hlook, Hi|].
  split; [by intros i Hi; rewrite Hlook, Hi|].
  split.
  - intros Hbin. apply Forall_fmap. eapply Forall_impl; [exact Hbin|].
    intros v [->| ->]; [by right | by left].
  - rewrite <- list_fmap_compose. rewrite <- (list_fmap_id x) at 2.
    apply list_fmap_ext. intros _ v _. simpl. lia.
Qed.

(** C10.  [check_disjoint] reads [sol] only at the indices below the number
    [n] of subsets and only asks whether the entry is 1: two vectors with
    at least [n] entries whose first [n] entries are 1 at the same
    positions give the same result. *)
Theorem check_disjoint_reads_selection_only `{Countable E}
    (sol1 sol2 : list Z) (list_of_subsets : list (list E)) :
  let n := length list_of_subsets in
  n ≤ length sol1 →
  n ≤ length sol2 →
  (∀ i, i < n → (sol1 !! i = Some 1%Z ↔ sol2 !! i = Some 1%Z)) →
  check_disjoint sol1 list_of_subsets = check_disjoint sol2 list_of_subsets.
Proof.
  intros n Hlen1 Hlen2 Hagree. unfold check_disjoint.
  rewrite !select_subsets_ok by done.
  fold n. by rewrite (selected_agree sol1 sol2 n Hagree).
Qed.

Lemma check_disjoint_reads_selection_only_witness :
  length example_subsets ≤ length [1; 2; 1; 7; 1]%Z
  ∧ length example_subsets ≤ length [1; -1; 1]%Z
  ∧ (∀ i, i < 3 →
       ([1; 2; 1; 7; 1]%Z !! i = Some 1%Z ↔ [1; -1; 1]%Z !! i = Some 1%Z))
  ∧ check_disjoint [1; 2; 1; 7; 1]%Z example_subsets
    = check_disjoint [1; -1; 1]%Z example_subsets.
Proof.
  assert (Hagree : ∀ i, i < 3 →
            ([1; 2; 1; 7; 1]%Z !! i = Some 1%Z ↔ [1; -1; 1]%Z !! i = Some 1%Z)).
  { intros [|[|[|i]]] Hi; simpl; [done| |done|lia]. split; intros [=]. }
  split; [simpl; lia|]. split; [simpl; lia|]. split; [exact Hagree|].
  apply (check_disjoint_reads_selection_only
           [1; 2; 1; 7; 1]%Z [1; -1; 1]%Z example_subsets);
    [simpl; lia | simpl; lia | exact Hagree].
Defined.

(** ** Decoding the most likely bit string *)

Section SampleMostLikelyFacts.
Variable hypot : spec_float → spec_float → spec_float.

(** *** The order of binary64 numbers *)

Ltac compare_cases :=
  repeat match goal with
  | |- context [Z.compare ?a ?b] => destruct (Z.compare_spec a b)
  | H : context [Z.compare ?a ?b] |- _ => destruct (Z.compare_spec a b)
  | |- context [Pos.compare_cont Eq ?a ?b] =>
      change (Pos.compare_cont Eq a b) with (Pos.compare a b);
      destruct (Pos.compare_spec a b)
  | H : context [Pos.compare_cont Eq ?a ?b] |- _ =>
      change (Pos.compare_cont Eq a b) with (Pos.compare a b) in H;
      destruct (Pos.compare_spec a b)
  end.

Ltac float_cases :=
  repeat match goal with s : bool |- _ => destruct s end;
  try done; compare_cases; simpl; try done; try lia.

Lemma SFleb_trans (a b c : spec_float) :
  SFleb a b = true → SFleb b c = true → SFleb a c = true.
Proof.
  unfold SFleb, SFcompare.
  destruct a as [sa|sa| |sa ma ea], b as [sb|sb| |sb mb eb],
           c as [sc|sc| |sc mc ec]; float_cases.
Qed.

Lemma SFleb_ltb_trans (a b c : spec_float) :
  SFleb a b = true → SFltb b c = true → SFltb a c = true.
Proof.
  unfold SFleb, SFltb, SFcompare.
  destruct a as [sa|sa| |sa ma ea], b as [sb|sb| |sb mb eb],
           c as [sc|sc| |sc mc ec]; float_cases.
Qed.

Lemma SFleb_total (a b : spec_float) :
  is_nan a = false → is_nan b = false →
  SFleb a b = false → SFltb b a = true.
Proof.
  unfold SFleb, SFltb, SFcompare.
  destruct a as [sa|sa| |sa ma ea], b as [sb|sb| |sb mb eb]; float_cases.
Qed.

Lemma SFleb_refl (a : spec_float) : is_nan a = false → SFleb a a = true.
Proof.
  unfold SFleb, SFcompare. destruct a as [sa|sa| |sa ma ea]; float_cases.
Qed.

Lemma SFltb_leb (a b : spec_float) : SFltb a b = true → SFleb a b = true.
Proof. unfold SFleb, SFltb. by destruct (SFcompare a b) as [[]|]. Qed.

(** *** The scan of [np.argmax] *)

Lemma argmax_scan_first_maximum (ip pre : list spec_float)
    (mp : spec_float) (max_ind : nat) :
  Forall (λ f, is_nan f = false) (pre ++ ip) →
  first_maximum pre max_ind mp →
  ∃ m, first_maximum (pre ++ ip) (argmax_scan mp max_ind (length pre) ip) m.
Proof.
  revert pre mp max_ind.
  induction ip as [|x ip IH]; intros pre mp max_ind Hnan (Hmp & Hle & Hlt).
  - exists mp. by rewrite app_nil_r.
  - assert (Hmpn : is_nan mp = false).
    { rewrite Forall_forall in Hnan. apply Hnan.
      apply elem_of_app. left. by eapply list_elem_of_lookup_2. }
    assert (Hxn : is_nan x = false).
    { rewrite Forall_forall in Hnan. apply Hnan.
      apply elem_of_app. right. apply list_elem_of_here. }
    cbn [argmax_scan]. rewrite Hmpn.
    assert (Hsnoc : length (pre ++ [x]) = S (length pre))
      by (rewrite length_app; simpl; lia).
    rewrite (cons_middle x pre ip), app_assoc in Hnan |- *.
    pose proof (lookup_lt_Some _ _ _ Hmp) as Hind.
    destruct (SFleb x mp) eqn:Hx.
    + rewrite <- Hsnoc. apply IH; [done|].
      split; [by apply lookup_app_l_Some|]. split.
      * intros j f Hj. apply lookup_snoc_Some in Hj as [[_ Hj]|[_ <-]]; eauto.
      * intros j f Hjk Hj.
        apply lookup_snoc_Some in Hj as [[_ Hj]|[Hjl _]]; [eauto | lia].
    + apply SFleb_total in Hx; [|done..].
      rewrite <- Hsnoc. apply IH; [done|].
      split; [by apply list_lookup_middle|]. split.
      * intros j f Hj. apply lookup_snoc_Some in Hj as [[_ Hj]|[_ <-]].
        -- eapply SFltb_leb, SFleb_ltb_trans; eauto.
        -- by apply SFleb_refl.
      * intros j f Hjk Hj.
        apply lookup_snoc_Some in Hj as [[_ Hj]|[Hjl _]]; [|lia].
        eapply SFleb_ltb_trans; eauto.
Qed.

Lemma np_argmax_first_maximum (a : list spec_float) :
  0 < length a →
  Forall (λ f, is_nan f = false) a →
  ∃ k m, np_argmax a = Ok k ∧ first_maximum a k m.
Proof.
  destruct a as [|x a]; simpl; [lia|]. intros _ Hnan.
  destruct (argmax_scan_first_maximum a [x] x 0) as [m Hm]; [done| |].
  - split; [done|]. split.
    + intros [|j] f Hj; [|done]. injection Hj as <-.
      apply SFleb_refl. by inversion Hnan.
    + intros j f Hj. lia.
  - by exists (argmax_scan x 0 1 a), m.
Qed.

(** A NaN at the head of the array is the answer. *)
Lemma np_argmax_nan_head (a : list spec_float) :
  np_argmax (S754_nan :: a) = Ok 0.
Proof. by destruct a. Qed.

(** *** Loops that fill an array index by index *)

Lemma fold_left_ext {X Y : Type} (f g : X → Y → X) (l : list Y) (a : X) :
  (∀ a y, f a y = g a y) → fold_left f l a = fold_left g l a.
Proof.
  intros Hfg. revert a. induction l as [|y l IH]; intros a; [done|].
  simpl. by rewrite Hfg, IH.
Qed.

(** A loop over [range(m)] that stores [val s i] at index [i] of an array
    of length [m] and moves its state from [s] to [next s i]. *)
Lemma fold_left_fill {T St : Type} (val : St → nat → T) (next : St → nat → St)
    (d : T) (m k : nat) (s0 : St) :
  k ≤ m →
  fold_left (λ acc i, (<[i := val acc.2 i]> acc.1, next acc.2 i))
            (seq 0 k) (replicate m d, s0)
  = (((λ i, val (fold_left next (seq 0 i) s0) i) <$> seq 0 k)
       ++ replicate (m - k) d,
     fold_left next (seq 0 k) s0).
Proof.
  induction k as [|k IH]; intros Hk.
  - simpl. by rewrite Nat.sub_0_r.
  - rewrite seq_S, !fold_left_app, IH by lia. cbn [fold_left fst snd plus].
    f_equal. rewrite fmap_app, <- app_assoc. cbn [fmap list_fmap app].
    rewrite insert_app_r_alt by (by rewrite length_fmap, length_seq).
    rewrite length_fmap, length_seq, Nat.sub_diag.
    replace (m - k) with (S (m - S k)) by lia. done.
Qed.

Lemma fold_left_shiftr (k0 : Z) (l : list nat) :
  fold_left (λ (k : Z) (_ : nat), Z.shiftr k 1) l k0
  = Z.shiftr k0 (Z.of_nat (length l)).
Proof.
  revert k0. induction l as [|i l IH]; intros k0.
  - simpl. by rewrite Z.shiftr_0_r.
  - cbn [fold_left length]. rewrite IH, Z.shiftr_shiftr by lia.
    f_equal. lia.
Qed.

(** The loop of lines 142 to 144 writes the bits of [k], least significant
    first. *)
Lemma bits_loop (n k : nat) :
  (fold_left bits_body (range n) (np_zeros n, Z.of_nat k)).1 = bits_of n k.
Proof.
  unfold range, np_zeros, bits_of.
  rewrite (fold_left_ext bits_body
             (λ acc i, (<[i := (acc.2 `mod` 2)%Z]> acc.1, Z.shiftr acc.2 1)))
    by (by intros [??] ?).
  rewrite (fold_left_fill (λ k _, (k `mod` 2)%Z) (λ k _, Z.shiftr k 1)) by done.
  cbn [fst]. rewrite Nat.sub_diag, app_nil_r.
  apply list_fmap_ext. intros _ i _. cbn beta.
  rewrite fold_left_shiftr, length_seq, <- Z.bit0_mod.
  rewrite Z.shiftr_spec by lia. done.
Qed.

Lemma map_result_length {X Y : Type} (f : X → result Y) (l : list X)
    (ys : list Y) :
  map_result f l = Ok ys → length ys = length l.
Proof.
  revert ys. induction l as [|x l IH]; intros ys; cbn [map_result].
  - by intros [= <-].
  - destruct (f x) as [y|e]; [|done]. cbn [mbind result_bind].
    destruct (map_result f l) as [ys'|e]; [|done]. cbn [mbind result_bind].
    intros [= <-]. cbn [length]. by rewrite (IH ys').
Qed.

Lemma map_result_ext {X Y : Type} (f g : X → result Y) (l : list X) :
  (∀ x, x ∈ l → f x = g x) → map_result f l = map_result g l.
Proof.
  induction l as [|x l IH]; intros Hfg; [done|]. cbn [map_result].
  rewrite (Hfg x) by left. rewrite IH; [done|].
  intros x' Hx'. apply Hfg. by right.
Qed.

Lemma map_result_fmap {X X' Y : Type} (f : X' → result Y) (g : X → X')
    (l : list X) :
  map_result f (g <$> l) = map_result (λ x, f (g x)) l.
Proof.
  induction l as [|x l IH]; [done|].
  rewrite fmap_cons. cbn [map_result]. by rewrite IH.
Qed.

(** The only exception of a list of outcomes is one of an element. *)
Lemma map_result_Raise {X Y : Type} (f : X → result Y) (l : list X) (e : exn) :
  map_result f l = Raise e → ∃ x, x ∈ l ∧ f x = Raise e.
Proof.
  induction l as [|x l IH]; cbn [map_result]; [done|].
  destruct (f x) as [y|e'] eqn:Hx; cbn [mbind result_bind].
  - destruct (map_result f l) as [ys|e'] eqn:Hl; cbn [mbind result_bind]; [done|].
    intros [= ->]. destruct (IH eq_refl) as (x' & Hin & Hx').
    exists x'. split; [by right | done].
  - intros [= ->]. exists x. split; [left | done].
Qed.

Lemma map_result_all_Ok {X Y : Type} (f : X → result Y) (g : X → Y)
    (l : list X) :
  (∀ x, x ∈ l → f x = Ok (g x)) → map_result f l = Ok (g <$> l).
Proof.
  induction l as [|x l IH]; intros Hfg; [done|]. cbn [map_result].
  rewrite (Hfg x) by left. cbn [mbind result_bind].
  rewrite IH; [done|]. intros x' Hx'. apply Hfg. by right.
Qed.

Lemma counts_body_unfold (n : nat) (counts : gmap string N)
    (temp_vec : list spec_float) (total : N) (i : nat) :
  counts_body n counts (temp_vec, total) i
  = (stored ← float_of_int (Z.of_N (count_of n counts i));
     Ok (<[i := stored]> temp_vec, (total + count_of n counts i)%N)).
Proof. done. Qed.

(** The loop of lines 133 to 137 looks every index up, converts the
    counts one after the other and adds them up. *)
Lemma counts_loop_from (n : nat) (counts : gmap string N) (d : spec_float)
    (k a : nat) (pre : list spec_float) (t : N) :
  length pre = a →
  for_each (counts_body n counts) (seq a k) (pre ++ replicate k d, t)
  = (cs ← map_result (λ i, float_of_int (Z.of_N (count_of n counts i))) (seq a k);
     Ok (pre ++ cs, (t + foldr N.add 0%N (count_of n counts <$> seq a k))%N)).
Proof.
  revert a pre t. induction k as [|k IH]; intros a pre t Hpre.
  - cbn. do 2 f_equal. lia.
  - cbn [seq for_each map_result replicate]. rewrite counts_body_unfold.
    destruct (float_of_int (Z.of_N (count_of n counts a))) as [c|e];
      [|done].
    cbn [mbind result_bind].
    rewrite insert_app_r_alt by lia.
    replace (a - length pre) with 0 by lia. cbn [insert list_insert].
    rewrite (cons_middle c pre (replicate k d)), app_assoc.
    rewrite (IH (S a) (pre ++ [c])) by (rewrite length_app; simpl; lia).
    destruct (map_result _ (seq (S a) k)) as [cs|e]; [|done].
    cbn [mbind result_bind]. rewrite <- app_assoc. cbn [app].
    rewrite fmap_cons. cbn [foldr]. do 2 f_equal. lia.
Qed.

Lemma normalised_counts_unfold (n : nat) (counts : gmap string N) :
  normalised_counts n counts
  = (cs ← map_result (λ i, float_of_int (Z.of_N (count_of n counts i)))
                     (range (2 ^ n));
     divisor ← float_of_int (Z.of_N (total_count n counts));
     Ok ((λ c, SFdiv prec emax c divisor) <$> (cs : list spec_float))).
Proof.
  unfold normalised_counts, range.
  pose proof (counts_loop_from n counts (S754_zero false) (2 ^ n) 0 [] 0%N eq_refl)
    as Hloop.
  cbn [app] in Hloop. rewrite Hloop.
  destruct (map_result _ (seq 0 (2 ^ n))) as [cs|e]; [|done].
  cbn [mbind result_bind]. by rewrite N.add_0_l.
Qed.

(** The dictionary path raises nothing but [OverflowError]. *)
Lemma float_of_int_Raise (z : Z) (e : exn) :
  float_of_int z = Raise e → e = OverflowError.
Proof. unfold float_of_int. destruct (float_of_Z z); congruence. Qed.

Lemma float_of_int_Ok (z : Z) (f : spec_float) :
  float_of_int z = Ok f → f = float_of_Z z.
Proof. unfold float_of_int. destruct (float_of_Z z); congruence. Qed.

Lemma normalised_counts_Raise (n : nat) (counts : gmap string N) (e : exn) :
  normalised_counts n counts = Raise e → e = OverflowError.
Proof.
  rewrite normalised_counts_unfold.
  destruct (map_result _ _) as [cs|e'] eqn:Hcs; cbn [mbind result_bind].
  - destruct (float_of_int _) as [t|e'] eqn:Ht; cbn [mbind result_bind]; [done|].
    intros [= ->]. by eapply float_of_int_Raise.
  - intros [= ->]. apply map_result_Raise in Hcs as (i & _ & Hi).
    by eapply float_of_int_Raise.
Qed.

Lemma total_count_zero (n : nat) (counts : gmap string N) (i : nat) :
  total_count n counts = 0%N → i < 2 ^ n → count_of n counts i = 0%N.
Proof.
  unfold total_count, range. intros Htotal Hi.
  assert (Hin : i ∈ seq 0 (2 ^ n)) by (apply elem_of_seq; lia).
  revert Htotal Hin. generalize (seq 0 (2 ^ n)) as l.
  induction l as [|j l IH]; intros Htotal Hin.
  - by apply elem_of_nil in Hin.
  - rewrite fmap_cons in Htotal. cbn [foldr] in Htotal.
    apply elem_of_cons in Hin as [->|Hin]; [lia|].
    apply IH; [lia | done].
Qed.

(** *** The keys of the dictionary *)

Lemma string_length_app (s1 s2 : string) :
  String.length (s1 +:+ s2) = String.length s1 + String.length s2.
Proof. induction s1 as [|c s1 IH]; simpl; [done | by rewrite IH]. Qed.

Lemma zeros_string_length (k : nat) : String.length (zeros_string k) = k.
Proof. induction k as [|k IH]; simpl; [done | by rewrite IH]. Qed.

Lemma bin_digits_length (p : positive) :
  String.length (bin_digits p) = Pos.size_nat p.
Proof.
  induction p as [p IH|p IH|]; simpl; [| |done];
    rewrite string_length_app, IH; simpl; lia.
Qed.

Lemma size_nat_bound (p : positive) (n : nat) :
  Pos.to_nat p < 2 ^ n → Pos.size_nat p ≤ n.
Proof.
  revert n. induction p as [p IH|p IH|]; intros [|n] Hp; simpl in *;
    try lia.
  - rewrite Pos2Nat.inj_xI in Hp. specialize (IH n). lia.
  - rewrite Pos2Nat.inj_xO in Hp. specialize (IH n). lia.
Qed.

Lemma bin_value_from_app (acc : N) (s1 s2 : string) :
  bin_value_from acc (s1 +:+ s2) = bin_value_from (bin_value_from acc s1) s2.
Proof. revert acc. induction s1 as [|c s1 IH]; intros acc; simpl; [done | by rewrite IH]. Qed.

Lemma bin_value_from_zeros (acc : N) (k : nat) :
  bin_value_from acc (zeros_string k) = (acc * 2 ^ N.of_nat k)%N.
Proof.
  revert acc. induction k as [|k IH]; intros acc.
  - simpl. lia.
  - cbn [zeros_string bin_value_from]. rewrite IH.
    rewrite Nat2N.inj_succ, N.pow_succ_r'. simpl. lia.
Qed.

Lemma bin_value_digits (p : positive) : bin_value (bin_digits p) = Npos p.
Proof.
  unfold bin_value. induction p as [p IH|p IH|]; simpl; [| |done];
    rewrite bin_value_from_app, IH; simpl; lia.
Qed.

(** The key of index [i] is the binary numeral of [i], and for [n >= 1]
    qubits it has [n] digits. *)
Lemma binary_repr_value (i n : nat) :
  bin_value (binary_repr i n) = N.of_nat i.
Proof.
  unfold binary_repr. destruct (N.of_nat i) as [|p] eqn:Hi.
  - unfold bin_value. rewrite bin_value_from_zeros. lia.
  - unfold zfill, bin_value.
    rewrite bin_value_from_app, bin_value_from_zeros.
    apply bin_value_digits.
Qed.

Lemma binary_repr_length (i n : nat) :
  0 < n → i < 2 ^ n → String.length (binary_repr i n) = n.
Proof.
  intros Hn Hi. unfold binary_repr. destruct (N.of_nat i) as [|p] eqn:Hp.
  - rewrite decide_False by lia. apply zeros_string_length.
  - unfold zfill. rewrite string_length_app, zeros_string_length.
    rewrite bin_digits_length.
    assert (Pos.size_nat p ≤ n); [|lia].
    apply size_nat_bound. lia.
Qed.

(** *** The function in closed form *)

Lemma sample_most_likely_unfold (n : nat) (state_vector : state_vector_input) :
  sample_most_likely hypot n state_vector
  = (v ← dense_of n state_vector;
     k ← np_argmax (np_abs hypot <$> v);
     Ok (bits_of n k)).
Proof.
  unfold sample_most_likely. fold (dense_of n state_vector).
  destruct (dense_of n state_vector) as [v|e]; [|done].
  cbn [mbind result_bind].
  destruct (np_argmax _) as [k|e]; [|done]. cbn [mbind result_bind].
  pose proof (bits_loop n k) as Hbits.
  destruct (fold_left bits_body (range n) (np_zeros n, Z.of_nat k)) as [x k'].
  simpl in Hbits. by rewrite Hbits.
Qed.

Lemma bits_of_zero (n : nat) : bits_of n 0 = np_zeros n.
Proof.
  unfold bits_of, np_zeros, range. apply list_eq. intros i.
  rewrite list_lookup_fmap. destruct (decide (i < n)).
  - rewrite lookup_seq_lt, lookup_replicate_2 by done.
    cbn [fmap option_fmap option_map Z.of_nat]. by rewrite Z.testbit_0_l.
  - rewrite lookup_seq_ge by lia. symmetry. apply lookup_replicate_None. lia.
Qed.

Lemma bits_of_lookup (n k i : nat) :
  i < n →
  bits_of n k !! i = Some (Z.b2z (Z.testbit (Z.of_nat k) (Z.of_nat i))).
Proof.
  intros Hi. unfold bits_of, range.
  by rewrite list_lookup_fmap, lookup_seq_lt by done.
Qed.

(** No count at all: every quotient is 0/0. *)
Lemma normalised_counts_nan (n : nat) (counts : gmap string N) :
  total_count n counts = 0%N →
  normalised_counts n counts = Ok (replicate (2 ^ n) S754_nan).
Proof.
  intros Htotal. rewrite normalised_counts_unfold, Htotal.
  rewrite (map_result_all_Ok _ (λ _, S754_zero false)).
  - cbn [mbind result_bind]. change (float_of_int (Z.of_N 0)) with (Ok (S754_zero false)).
    cbn [mbind result_bind]. f_equal. unfold range.
    rewrite <- list_fmap_compose. apply list_eq. intros i.
    rewrite list_lookup_fmap.
    destruct (decide (i < 2 ^ n)) as [Hi|Hi].
    + by rewrite lookup_seq_lt, lookup_replicate_2 by done.
    + rewrite lookup_seq_ge by lia. symmetry. apply lookup_replicate_None. lia.
  - intros i Hi. apply elem_of_seq in Hi.
    by rewrite (total_count_zero n counts i Htotal) by lia.
Qed.

End SampleMostLikelyFacts.

Example sample_most_likely_example_dense :
  sample_most_likely naive_hypot 3 (Dense example_amplitudes) = Ok [1; 0; 0]%Z.
Proof. by vm_compute. Qed.

Example sample_most_likely_example_counts :
  sample_most_likely naive_hypot 2
    (Sparse (<["01" := 3%N]> (<["11" := 1%N]> ∅))) = Ok [1; 0]%Z.
Proof. by vm_compute. Qed.

Example sample_most_likely_example_no_counts :
  normalised_counts 2 ∅ = Ok [S754_nan; S754_nan; S754_nan; S754_nan]
  ∧ sample_most_likely naive_hypot 2 (Sparse ∅) = Ok [0; 0]%Z.
Proof. by vm_compute. Qed.

Example sample_most_likely_example_overflow :
  sample_most_likely naive_hypot 1 (Sparse (<["0" := (10 ^ 400)%N]> ∅))
  = Raise OverflowError.
Proof. by vm_compute. Qed.

Example sample_most_likely_example_empty :
  sample_most_likely naive_hypot 2 (Dense []) = Raise ValueError.
Proof. by vm_compute. Qed.

(** C4.  On a dense state vector (not empty, its magnitudes numbers)
    [sample_most_likely] takes the index [k] of the first entry of maximum
    magnitude and returns the [n] bits of [k], least significant first. *)
Theorem sample_most_likely_dense (hypot : spec_float → spec_float → spec_float)
    (n : nat) (v : list amplitude) :
  0 < length v →
  Forall (λ a, is_nan (np_abs hypot a) = false) v →
  ∃ k m,
    (np_abs hypot <$> v) !! k = Some m
    ∧ (∀ j f, (np_abs hypot <$> v) !! j = Some f → SFleb f m = true)
    ∧ (∀ j f, j < k → (np_abs hypot <$> v) !! j = Some f → SFltb f m = true)
    ∧ sample_most_likely hypot n (Dense v) = Ok (bits_of n k)
    ∧ length (bits_of n k) = n
    ∧ (∀ i, i < n →
         bits_of n k !! i
         = Some (Z.b2z (Z.testbit (Z.of_nat k) (Z.of_nat i)))).
Proof.
  intros Hlen Hnan.
  destruct (np_argmax_first_maximum (np_abs hypot <$> v)) as (k & m & Hk & Hmax).
  { by rewrite length_fmap. }
  { by apply Forall_fmap. }
  destruct Hmax as (Hm & Hle & Hlt).
  exists k, m. split; [done|]. split; [done|]. split; [done|].
  split; [|split].
  - rewrite sample_most_likely_unfold. simpl. by rewrite Hk.
  - unfold bits_of, range. by rewrite length_fmap, length_seq.
  - intros i Hi. by apply bits_of_lookup.
Qed.

Lemma sample_most_likely_dense_witness :
  0 < length example_amplitudes
  ∧ Forall (λ a, is_nan (np_abs naive_hypot a) = false) example_amplitudes
  ∧ ∃ k m,
      (np_abs naive_hypot <$> example_amplitudes) !! k = Some m
      ∧ (∀ j f, (np_abs naive_hypot <$> example_amplitudes) !! j = Some f
                → SFleb f m = true)
      ∧ (∀ j f, j < k
                → (np_abs naive_hypot <$> example_amplitudes) !! j = Some f
                → SFltb f m = true)
      ∧ sample_most_likely naive_hypot 3 (Dense example_amplitudes)
        = Ok (bits_of 3 k)
      ∧ length (bits_of 3 k) = 3
      ∧ (∀ i, i < 3 →
           bits_of 3 k !! i
           = Some (Z.b2z (Z.testbit (Z.of_nat k) (Z.of_nat i)))).
Proof.
  assert (Hlen : 0 < length example_amplitudes) by (simpl; lia).
  assert (Hnan : Forall (λ a, is_nan (np_abs naive_hypot a) = false)
                        example_amplitudes)
    by (repeat constructor).
  split; [exact Hlen|]. split; [exact Hnan|].
  exact (sample_most_likely_dense naive_hypot 3 example_amplitudes Hlen Hnan).
Defined.

(** C6.  On a dictionary of counts [sample_most_likely] looks the key
    [np.binary_repr(i, n)] up for every index [i] below [2^n], with 0 for
    a key that is absent, stores each count as a double and divides every
    entry by the total, converted to a double, with no test on the total.
    A count or a total too large for a double raises [OverflowError], and
    nothing else is raised.  When the total is 0 every quotient is 0/0, a
    NaN: the array of NaNs goes to [np.argmax] and no exception is
    raised. *)
Theorem sample_most_likely_counts (hypot : spec_float → spec_float → spec_float)
    (n : nat) (counts : gmap string N) :
  let temp_vec := count_of n counts <$> range (2 ^ n) in
  let total := total_count n counts in
  length temp_vec = 2 ^ n
  ∧ (∀ i, count_of n counts i = default 0%N (counts !! binary_repr i n))
  ∧ (∀ i, bin_value (binary_repr i n) = N.of_nat i)
  ∧ (∀ i, 0 < n → i < 2 ^ n → String.length (binary_repr i n) = n)
  ∧ total = foldr N.add 0%N temp_vec
  ∧ normalised_counts n counts
    = (cs ← map_result (λ c, float_of_int (Z.of_N c)) temp_vec;
       divisor ← float_of_int (Z.of_N total);
       Ok ((λ c, SFdiv prec emax c divisor) <$> (cs : list spec_float)))
  ∧ (∀ z, float_of_int z
          = match float_of_Z z with
            | S754_infinity _ => Raise OverflowError
            | f => Ok f
            end)
  ∧ (∀ e, normalised_counts n counts = Raise e → e = OverflowError)
  ∧ ((∀ c, c ∈ temp_vec → ∃ f, float_of_int (Z.of_N c) = Ok f) →
     (∃ f, float_of_int (Z.of_N total) = Ok f) →
     normalised_counts n counts
     = Ok ((λ c, SFdiv prec emax (float_of_Z (Z.of_N c)) (float_of_Z (Z.of_N total)))
           <$> temp_vec))
  ∧ sample_most_likely hypot n (Sparse counts)
    = (v ← normalised_counts n counts;
       k ← np_argmax (np_abs hypot <$> (Real <$> (v : list spec_float)));
       Ok (bits_of n k))
  ∧ (total = 0%N →
       normalised_counts n counts = Ok (replicate (2 ^ n) S754_nan)
       ∧ np_abs hypot <$> (Real <$> replicate (2 ^ n) S754_nan)
         = replicate (2 ^ n) S754_nan
       ∧ sample_most_likely hypot n (Sparse counts) = Ok (np_zeros n)).
Proof.
  intros temp_vec total.
  assert (Hclosed : normalised_counts n counts
            = (cs ← map_result (λ c, float_of_int (Z.of_N c)) temp_vec;
               divisor ← float_of_int (Z.of_N total);
               Ok ((λ c, SFdiv prec emax c divisor) <$> (cs : list spec_float)))).
  { rewrite normalised_counts_unfold. unfold temp_vec. by rewrite map_result_fmap. }
  assert (Hsample : sample_most_likely hypot n (Sparse counts)
            = (v ← normalised_counts n counts;
               k ← np_argmax (np_abs hypot <$> (Real <$> (v : list spec_float)));
               Ok (bits_of n k))).
  { rewrite sample_most_likely_unfold. cbn [dense_of].
    by destruct (normalised_counts n counts). }
  split; [unfold temp_vec, range; by rewrite length_fmap, length_seq|].
  split; [done|].
  split; [intros i; apply binary_repr_value|].
  split; [intros i; apply binary_repr_length|].
  split; [done|].
  split; [exact Hclosed|].
  split; [done|].
  split; [apply normalised_counts_Raise|].
  split.
  { intros Hcounts [t Ht]. rewrite Hclosed.
    rewrite (map_result_all_Ok _ (λ c, float_of_Z (Z.of_N c))).
    - cbn [mbind result_bind]. rewrite Ht. cbn [mbind result_bind].
      apply float_of_int_Ok in Ht as ->. by rewrite <- list_fmap_compose.
    - intros c Hc. destruct (Hcounts c Hc) as [f Hf]. rewrite Hf.
      by apply float_of_int_Ok in Hf as ->. }
  split; [exact Hsample|].
  intros Htotal.
  pose proof (normalised_counts_nan n counts Htotal) as Hnan.
  assert (Habs : np_abs hypot <$> (Real <$> replicate (2 ^ n) S754_nan)
                 = replicate (2 ^ n) S754_nan).
  { rewrite <- list_fmap_compose. by rewrite fmap_replicate. }
  split; [done|]. split; [done|].
  rewrite Hsample, Hnan. cbn [mbind result_bind]. rewrite Habs.
  assert (Hpow : 2 ^ n = S (2 ^ n - 1)).
  { pose proof (Nat.pow_nonzero 2 n). lia. }
  rewrite Hpow. cbn [replicate]. rewrite np_argmax_nan_head.
  cbn [mbind result_bind]. by rewrite bits_of_zero.
Qed.

(** ** Reading numbers from a file *)

Lemma round_half_even_exact (m d : Z) :
  (0 < d)%Z → (m `mod` d = 0)%Z → round_half_even m d = (m `div` d)%Z.
Proof.
  intros Hd Hr. unfold round_half_even. rewrite Hr.
  by destruct (Z.compare_spec (2 * 0) d); try lia.
Qed.

Lemma round_half_even_inexact (m d : Z) :
  (0 < d)%Z → (m `mod` d ≠ 0)%Z → (round_half_even m d * d ≠ m)%Z.
Proof.
  intros Hd Hr. unfold round_half_even.
  pose proof (Z.div_mod m d ltac:(lia)) as Hm.
  pose proof (Z.mod_pos_bound m d Hd) as Hb.
  destruct (Z.compare_spec (2 * (m `mod` d)) d); [destruct (Z.even _)|..]; nia.
Qed.

(** Rounding a finite float reproduces it exactly when it is an integer. *)
Lemma py_round_finite (s : bool) (m : positive) (e : Z) :
  ∃ r, py_round (S754_finite s m e) = Ok r
       ∧ match integer_of (S754_finite s m e) with
         | Some z => r = z ∧ int_eq_float r (S754_finite s m e) = true
         | None => int_eq_float r (S754_finite s m e) = false
         end.
Proof.
  unfold py_round, integer_of, int_eq_float.
  eexists. split; [reflexivity|].
  destruct (Z.leb_spec 0 e) as [He|He].
  - split; [done|]. apply Z.eqb_eq. destruct s; lia.
  - assert (Hd : (0 < 2 ^ (- e))%Z) by (apply Z.pow_pos_nonneg; lia).
    destruct (Z.eqb_spec (Z.pos m `mod` 2 ^ (- e)) 0) as [Hr|Hr].
    + rewrite round_half_even_exact by done. split; [done|].
      apply Z.eqb_eq.
      pose proof (Z.div_mod (Z.pos m) (2 ^ (- e)) ltac:(lia)).
      destruct s; lia.
    + apply Z.eqb_neq.
      pose proof (round_half_even_inexact (Z.pos m) (2 ^ (- e)) Hd Hr).
      destruct s; lia.
Qed.

Section ReadNumbersFacts.
Variable py_float : string → result spec_float.

(** The assertion of line 115 passes exactly on the floats that are
    integers, and line 116 appends that integer. *)
Lemma read_body_outcome (numbers : list Z) (line : string) :
  read_body py_float numbers line
  = (z ← line_outcome py_float line; Ok (numbers ++ [z])).
Proof.
  unfold read_body, line_outcome.
  destruct (py_float line) as [f|e]; [|done]. cbn [mbind result_bind].
  destruct f as [s|s| |s m e]; try done.
  destruct (py_round_finite s m e) as (r & Hr & Hint).
  rewrite Hr. cbn [mbind result_bind].
  destruct (integer_of (S754_finite s m e)) as [z|].
  - destruct Hint as [-> Heq]. by rewrite Heq.
  - by rewrite Hint.
Qed.

Lemma for_each_read_body (lines : list string) (numbers : list Z) :
  for_each (read_body py_float) lines numbers
  = (zs ← map_result (line_outcome py_float) lines; Ok (numbers ++ zs)).
Proof.
  revert numbers. induction lines as [|line lines IH]; intros numbers.
  - simpl. by rewrite app_nil_r.
  - cbn [for_each map_result]. rewrite read_body_outcome.
    destruct (line_outcome py_float line) as [z|e]; [|done].
    cbn [mbind result_bind]. rewrite IH.
    destruct (map_result _ lines) as [zs|e]; [|done].
    cbn [mbind result_bind]. by rewrite <- app_assoc.
Qed.

Lemma line_outcome_finite (line : string) (f : spec_float) :
  py_float line = Ok f → is_finite f = true →
  line_outcome py_float line
  = match integer_of f with
    | Some z => Ok z
    | None => Raise AssertionError
    end.
Proof.
  intros Hf Hfin. unfold line_outcome. rewrite Hf.
  by destruct f as [s|s| |s m e].
Qed.

Lemma line_outcome_Ok (line : string) (z : Z) :
  line_outcome py_float line = Ok z
  ↔ ∃ f, py_float line = Ok f ∧ integer_of f = Some z.
Proof.
  unfold line_outcome. destruct (py_float line) as [f|e]; simpl.
  - split.
    + intros Hz. exists f. split; [done|].
      destruct f as [s|s| |s m e]; try done;
        destruct (integer_of _); congruence.
    + intros (f' & [= <-] & Hz).
      destruct f as [s|s| |s m e]; try done; by rewrite Hz.
  - split; [done|]. by intros (f & ? & _).
Qed.

Lemma map_result_cons {X Y : Type} (f : X → result Y) (x : X) (l : list X) :
  map_result f (x :: l) = (y ← f x; ys ← map_result f l; Ok (y :: ys)).
Proof. done. Qed.

Lemma map_result_Ok {X Y : Type} (f : X → result Y) (l : list X) (ys : list Y) :
  map_result f l = Ok ys ↔ Forall2 (λ x y, f x = Ok y) l ys.
Proof.
  revert ys. induction l as [|x l IH]; intros ys; simpl.
  - split; [intros [= <-]; constructor | by inversion 1].
  - destruct (f x) as [y|e] eqn:Hx; simpl.
    + destruct (map_result f l) as [ys'|e] eqn:Hl; simpl.
      * split.
        -- intros [= <-]. constructor; [done|]. by apply IH.
        -- inversion 1 as [|? y' ? ys'' Hy Hys]; subst.
           apply IH in Hys. congruence.
      * split; [done|]. inversion 1 as [|? y' ? ys'' Hy Hys]; subst.
        apply IH in Hys. congruence.
    + split; [done|]. inversion 1; congruence.
Qed.

(** When every line is a finite number and some line is not an integer,
    the first such line stops the loop with [AssertionError]. *)
Lemma map_result_assertion (lines : list string) :
  Forall (λ line, ∃ f, py_float line = Ok f ∧ is_finite f = true) lines →
  Exists (λ line, ∃ f, py_float line = Ok f ∧ integer_of f = None) lines →
  map_result (line_outcome py_float) lines = Raise AssertionError.
Proof.
  induction lines as [|line lines IH]; intros Hfin Hex; [by inversion Hex|].
  inversion Hfin as [|?? (f & Hf & Hff) Hfin']; subst.
  rewrite map_result_cons, (line_outcome_finite line f Hf Hff).
  destruct (integer_of f) as [z|] eqn:Hz; [|done].
  cbn [mbind result_bind]. rewrite IH; [done..|].
  inversion Hex as [?? (f' & Hf' & Hz')|]; subst; [congruence | done].
Qed.

Lemma read_numbers_from_file_unfold (fs : gmap string string)
    (filename content : string) :
  fs !! filename = Some content →
  read_numbers_from_file py_float fs filename
  = map_result (line_outcome py_float) (file_lines content).
Proof.
  intros Hfile. unfold read_numbers_from_file. rewrite Hfile.
  rewrite for_each_read_body. by destruct (map_result _ _).
Qed.

End ReadNumbersFacts.

(** The first line that fails ends the reading. *)
Lemma map_result_first_failure {X Y : Type} (f : X → result Y)
    (pre post : list X) (x : X) (e : exn) :
  Forall (λ x', ∃ y, f x' = Ok y) pre →
  f x = Raise e →
  map_result f (pre ++ x :: post) = Raise e.
Proof.
  intros Hpre Hx. induction Hpre as [|x' pre (y & Hy) _ IH].
  - simpl. by rewrite Hx.
  - rewrite <- app_comm_cons, map_result_cons, Hy, IH. done.
Qed.

Example read_numbers_example_integers :
  read_numbers_from_file float_of_decimal example_files "numbers.txt"
  = Ok [12; 7]%Z.
Proof. by vm_compute. Qed.

Example read_numbers_example_half :
  read_numbers_from_file float_of_decimal example_files "halves.txt"
  = Raise AssertionError.
Proof. by vm_compute. Qed.

Example read_numbers_example_word :
  read_numbers_from_file float_of_decimal example_files "words.txt"
  = Raise ValueError.
Proof. by vm_compute. Qed.

Example read_numbers_example_missing :
  read_numbers_from_file float_of_decimal example_files "nowhere.txt"
  = Raise FileNotFoundError.
Proof. by vm_compute. Qed.

(** A line that [float] reads as an infinity has no integer value, and it
    is not the assertion that fails on it: [round] raises
    [OverflowError] inside the assertion, before the comparison. *)
Lemma read_numbers_from_file_infinite_line :
  (∃ f, float_of_decimal (text_line huge_numeral) = Ok f
        ∧ integer_of f = None)
  ∧ read_numbers_from_file float_of_decimal huge_files "huge.txt"
    = Raise OverflowError
  ∧ read_numbers_from_file float_of_decimal huge_files "huge.txt"
    ≠ Raise AssertionError.
Proof.
  split; [|split].
  - exists (S754_infinity false). split; by vm_compute.
  - by vm_compute.
  - assert (Hr : read_numbers_from_file float_of_decimal huge_files "huge.txt"
                 = Raise OverflowError) by (by vm_compute).
    rewrite Hr. discriminate.
Qed.

(** C8, as the code has it.  [read_numbers_from_file] parses every line
    as a float; the assertion passes on a float exactly when it is an
    integer, and that integer is what rounding gives and what is
    appended.  The call returns the integers of all the lines when every
    line is an integer, and nothing else: it stops at the first line that
    is not an integer and raises, with [AssertionError] when that line is
    a finite number that is not whole, with [OverflowError] when it is an
    infinity, with [ValueError] when it is a NaN, and with the exception
    of [float] when it is no number. *)
Theorem read_numbers_from_file_integers
    (py_float : string → result spec_float)
    (fs : gmap string string) (filename content : string) :
  fs !! filename = Some content →
  let lines := file_lines content in
  let r := read_numbers_from_file py_float fs filename in
  (∀ numbers line,
     read_body py_float numbers line
     = (z ← line_outcome py_float line; Ok (numbers ++ [z])))
  ∧ (∀ s m e, ∃ rounded,
       py_round (S754_finite s m e) = Ok rounded
       ∧ match integer_of (S754_finite s m e) with
         | Some z => rounded = z
                     ∧ int_eq_float rounded (S754_finite s m e) = true
         | None => int_eq_float rounded (S754_finite s m e) = false
         end)
  ∧ (∀ zs, r = Ok zs
           ↔ Forall2 (λ line z, ∃ f, py_float line = Ok f
                                     ∧ integer_of f = Some z) lines zs)
  ∧ (Forall (λ line, ∃ f, py_float line = Ok f ∧ is_finite f = true) lines →
     Exists (λ line, ∃ f, py_float line = Ok f ∧ integer_of f = None) lines →
     r = Raise AssertionError)
  ∧ (Exists (λ line, ∀ f, py_float line = Ok f → integer_of f = None) lines →
     raises r)
  ∧ (∀ pre line post,
       lines = pre ++ line :: post →
       Forall (λ l, ∃ f z, py_float l = Ok f ∧ integer_of f = Some z) pre →
       (∀ f, py_float line = Ok f → is_finite f = true →
             integer_of f = None → r = Raise AssertionError)
       ∧ (∀ s, py_float line = Ok (S754_infinity s) → r = Raise OverflowError)
       ∧ (py_float line = Ok S754_nan → r = Raise ValueError)
       ∧ (∀ e, py_float line = Raise e → r = Raise e)).
Proof.
  intros Hfile lines r.
  assert (Hr : r = map_result (line_outcome py_float) lines)
    by (by apply read_numbers_from_file_unfold).
  assert (Hiff : ∀ zs, r = Ok zs
            ↔ Forall2 (λ line z, ∃ f, py_float line = Ok f
                                      ∧ integer_of f = Some z) lines zs).
  { intros zs. rewrite Hr, map_result_Ok. split; intros Hall.
    - eapply Forall2_impl; [exact Hall|]. intros line z. apply line_outcome_Ok.
    - eapply Forall2_impl; [exact Hall|]. intros line z. apply line_outcome_Ok. }
  split; [apply read_body_outcome|].
  split; [apply py_round_finite|].
  split; [exact Hiff|].
  split; [rewrite Hr; apply map_result_assertion|].
  split.
  { intros Hex. destruct r as [zs|e]; [|done].
    pose proof (proj1 (Hiff zs) eq_refl) as Hall.
    apply Exists_exists in Hex as (line & Hin & Hnone).
    apply list_elem_of_lookup in Hin as [k Hk].
    destruct (Forall2_lookup_l _ _ _ _ _ Hall Hk) as (z & _ & f & Hf & Hz).
    rewrite (Hnone f Hf) in Hz. done. }
  intros pre line post Hlines Hpre. rewrite Hr, Hlines.
  assert (Hpre' : Forall (λ l, ∃ z, line_outcome py_float l = Ok z) pre).
  { eapply Forall_impl; [exact Hpre|]. intros l (f & z & Hf & Hz).
    exists z. apply line_outcome_Ok. by exists f. }
  repeat split.
  - intros f Hf Hfin Hnone. apply map_result_first_failure; [done|].
    by rewrite (line_outcome_finite py_float line f Hf Hfin), Hnone.
  - intros s Hinf. apply map_result_first_failure; [done|].
    unfold line_outcome. by rewrite Hinf.
  - intros Hnan. apply map_result_first_failure; [done|].
    unfold line_outcome. by rewrite Hnan.
  - intros e He. apply map_result_first_failure; [done|].
    unfold line_outcome. by rewrite He.
Qed.

Lemma read_numbers_from_file_integers_witness :
  example_files !! "numbers.txt" = Some (text_line "12" +:+ text_line "7.0")
  ∧ (∀ zs, read_numbers_from_file float_of_decimal example_files "numbers.txt"
           = Ok zs
           ↔ Forall2 (λ line z, ∃ f, float_of_decimal line = Ok f
                                     ∧ integer_of f = Some z)
                     (file_lines (text_line "12" +:+ text_line "7.0")) zs).
Proof.
  split; [reflexivity|].
  exact (proj1 (proj2 (proj2
    (read_numbers_from_file_integers float_of_decimal example_files
       "numbers.txt" (text_line "12" +:+ text_line "7.0") eq_refl)))).
Defined.

(** ** Integers that binary64 holds exactly *)

Section ExactIntegers.
Local Open Scope Z_scope.

Lemma digits2_pos_iter (p d : positive) :
  digits2_pos (Pos.iter xO p d) = (digits2_pos p + d)%positive.
Proof.
  induction d as [|d IH] using Pos.peano_ind.
  - simpl. lia.
  - rewrite Pos.iter_succ. simpl. rewrite IH. lia.
Qed.

Lemma Zpos_iter_xO (p d : positive) :
  Z.pos (Pos.iter xO p d) = Z.pos p * 2 ^ Z.pos d.
Proof.
  induction d as [|d IH] using Pos.peano_ind.
  - simpl. lia.
  - rewrite Pos.iter_succ, Pos2Z.inj_xO, IH, Pos2Z.inj_succ, Z.pow_succ_r by lia.
    lia.
Qed.

Lemma digits2_pos_bounds (p : positive) :
  2 ^ (Z.pos (digits2_pos p) - 1) <= Z.pos p < 2 ^ Z.pos (digits2_pos p).
Proof.
  induction p as [p IH|p IH|]; simpl digits2_pos; [| |simpl; lia];
    rewrite Pos2Z.inj_succ;
    replace (Z.succ (Z.pos (digits2_pos p)) - 1) with (Z.succ (Z.pos (digits2_pos p) - 1)) by lia;
    rewrite !Z.pow_succ_r by lia; lia.
Qed.

Lemma digits2_pos_le (p : positive) (k : Z) :
  0 <= k → Z.pos p < 2 ^ k → Z.pos (digits2_pos p) <= k.
Proof.
  intros Hk Hp. pose proof (digits2_pos_bounds p) as [Hlo _].
  apply Z.nlt_ge. intros Hlt.
  assert (2 ^ k <= 2 ^ (Z.pos (digits2_pos p) - 1)) by (apply Z.pow_le_mono_r; lia).
  lia.
Qed.

Lemma binary_round_aux_canonical (s : bool) (m : positive) (e : Z) :
  Z.pos (digits2_pos m) = 53 → -1074 <= e <= 971 →
  binary_round_aux prec emax s (Z.pos m) e loc_Exact = S754_finite s m e.
Proof.
  intros Hd He. unfold binary_round_aux, shr_fexp, fexp, emin, prec, emax.
  cbn [Zdigits2 shr_record_of_loc]. rewrite Hd.
  replace (Z.max (53 + e - 53) (3 - 1024 - 53) - e) with 0 by lia.
  cbn [shr shr_m loc_of_shr_record round_nearest_even Zdigits2 shr_record_of_loc].
  rewrite Hd.
  replace (Z.max (53 + e - 53) (3 - 1024 - 53) - e) with 0 by lia.
  cbn [shr shr_m].
  destruct (Z.leb_spec e (1024 - 53)); [done|lia].
Qed.

Lemma binary_round_small (s : bool) (p : positive) :
  Z.pos p < 2 ^ 53 →
  ∃ m e, binary_round prec emax s p 0 = S754_finite s m e
         ∧ -52 <= e <= 0 ∧ Z.pos m = Z.pos p * 2 ^ (- e).
Proof.
  intros Hp. pose proof (digits2_pos_le p 53 ltac:(lia) Hp) as Hd.
  unfold binary_round, shl_align, fexp, emin, prec, emax.
  replace (Z.max (Z.pos (digits2_pos p) + 0 - 53) (3 - 1024 - 53) - 0)
    with (Z.pos (digits2_pos p) - 53) by lia.
  destruct (Z.pos (digits2_pos p) - 53) as [|k|k] eqn:Hk; [|lia|].
  - exists p, 0. split; [|split; [lia|simpl; lia]].
    apply binary_round_aux_canonical; lia.
  - exists (Pos.iter xO p k), (Z.pos (digits2_pos p) + 0 - 53).
    replace (Z.max (Z.pos (digits2_pos p) + 0 - 53) (3 - 1024 - 53))
      with (Z.pos (digits2_pos p) + 0 - 53) by lia.
    split; [|split; [lia|]].
    + apply binary_round_aux_canonical; [|lia].
      rewrite digits2_pos_iter. lia.
    + rewrite Zpos_iter_xO. f_equal. f_equal. lia.
Qed.

Lemma integer_of_float_of_Z (z : Z) :
  - 2 ^ 53 <= z <= 2 ^ 53 → integer_of (float_of_Z z) = Some z.
Proof.
  intros Hz.
  destruct (Z.eq_dec z (2 ^ 53)) as [->|Hhi]; [by vm_compute|].
  destruct (Z.eq_dec z (- 2 ^ 53)) as [->|Hlo]; [by vm_compute|].
  unfold float_of_Z, binary_normalize.
  destruct z as [|p|p]; [done|..].
  - destruct (binary_round_small false p ltac:(lia)) as (m & e & -> & He & Hm).
    unfold integer_of. destruct (Z.leb_spec 0 e).
    + assert (e = 0) as -> by lia. simpl in Hm. f_equal. simpl. lia.
    + rewrite Hm, Z.mod_mul, Z.div_mul by (apply Z.pow_nonzero; lia). done.
  - destruct (binary_round_small true p ltac:(lia)) as (m & e & -> & He & Hm).
    unfold integer_of. destruct (Z.leb_spec 0 e).
    + assert (e = 0) as -> by lia. simpl in Hm. f_equal. simpl. lia.
    + rewrite Hm, Z.mod_mul, Z.div_mul by (apply Z.pow_nonzero; lia). done.
Qed.

End ExactIntegers.

(** ** Printing integers and reading them back *)

Lemma string_app_cons (c : ascii) (s1 s2 : string) :
  String c s1 +:+ s2 = String c (s1 +:+ s2).
Proof. done. Qed.

Lemma string_app_nil_l (s : string) : EmptyString +:+ s = s.
Proof. done. Qed.

Lemma string_app_assoc (s1 s2 s3 : string) :
  (s1 +:+ s2) +:+ s3 = s1 +:+ (s2 +:+ s3).
Proof.
  induction s1 as [|c s1 IH]; [done|]. by rewrite !string_app_cons, IH.
Qed.

Lemma string_app_nil_r (s : string) : s +:+ EmptyString = s.
Proof. induction s as [|c s IH]; [done|]. by rewrite string_app_cons, IH. Qed.

Lemma string_forall_app (P : ascii → bool) (s1 s2 : string) :
  string_forall P (s1 +:+ s2) = string_forall P s1 && string_forall P s2.
Proof.
  induction s1 as [|c s1 IH]; [done|].
  rewrite string_app_cons. cbn [string_forall]. rewrite IH. by destruct (P c).
Qed.

Lemma pretty_N_char_digit (d : N) :
  (d < 10)%N → digit_value (pretty_N_char d) = Some d.
Proof.
  intros Hd.
  assert (d = 0 ∨ d = 1 ∨ d = 2 ∨ d = 3 ∨ d = 4 ∨ d = 5 ∨ d = 6 ∨ d = 7
          ∨ d = 8 ∨ d = 9)%N as Hcases by lia.
  repeat destruct Hcases as [->|Hcases]; try done. by subst.
Qed.

Lemma pretty_N_go_app (x : N) (s : string) :
  pretty_N_go x s = pretty_N_go x EmptyString +:+ s.
Proof.
  revert s. induction (N.lt_wf_0 x) as [x _ IH]; intros s.
  destruct (decide (x = 0%N)) as [->|Hx]; [by rewrite !pretty_N_go_0|].
  rewrite (pretty_N_go_step x s), (pretty_N_go_step x EmptyString) by lia.
  rewrite (IH (x `div` 10)%N) by (apply N.div_lt; lia).
  rewrite (IH (x `div` 10)%N ltac:(apply N.div_lt; lia) (String _ EmptyString)).
  by rewrite string_app_assoc.
Qed.

Lemma pretty_N_go_digits (x : N) :
  string_forall is_digit (pretty_N_go x EmptyString) = true.
Proof.
  induction (N.lt_wf_0 x) as [x _ IH].
  destruct (decide (x = 0%N)) as [->|Hx]; [by rewrite pretty_N_go_0|].
  rewrite pretty_N_go_step, pretty_N_go_app, string_forall_app by lia.
  rewrite IH by (apply N.div_lt; lia). simpl.
  unfold is_digit. rewrite pretty_N_char_digit; [done|].
  apply N.mod_lt. lia.
Qed.

Lemma read_digits_app (s1 s2 : string) (acc : N) (count : nat)
    (acc' : N) (count' : nat) :
  read_digits acc count s1 = (acc', count', EmptyString) →
  read_digits acc count (s1 +:+ s2) = read_digits acc' count' s2.
Proof.
  revert acc count. induction s1 as [|c s1 IH]; intros acc count.
  - rewrite string_app_nil_l. simpl. by intros [= -> ->].
  - rewrite string_app_cons. cbn [read_digits].
    destruct (digit_value c) as [d|]; [apply IH | done].
Qed.

Lemma read_digits_pretty (x : N) (acc : N) (count : nat) :
  ∃ k, read_digits acc count (pretty_N_go x EmptyString)
       = ((acc * 10 ^ N.of_nat k + x)%N, count + k, EmptyString)
       ∧ (x ≠ 0%N → 0 < k).
Proof.
  revert acc count. induction (N.lt_wf_0 x) as [x _ IH]; intros acc count.
  destruct (decide (x = 0%N)) as [->|Hx].
  - exists 0. rewrite pretty_N_go_0. cbn [read_digits]. split; [|done].
    assert ((acc * 10 ^ N.of_nat 0 + 0)%N = acc) as -> by (simpl; lia).
    by rewrite Nat.add_0_r.
  - rewrite pretty_N_go_step, pretty_N_go_app by lia.
    destruct (IH (x `div` 10)%N ltac:(apply N.div_lt; lia) acc count)
      as (k & Hk & _).
    exists (S k). rewrite (read_digits_app _ _ _ _ _ _ Hk).
    cbn [read_digits]. rewrite pretty_N_char_digit by (apply N.mod_lt; lia).
    split; [|lia].
    assert ((10 * (acc * 10 ^ N.of_nat k + x `div` 10) + x `mod` 10)%N
            = (acc * 10 ^ N.of_nat (S k) + x)%N) as ->.
    { rewrite Nat2N.inj_succ, N.pow_succ_r'.
      pose proof (N.div_mod x 10 ltac:(lia)). lia. }
    by rewrite Nat.add_succ_r.
Qed.

Lemma is_digit_not_space (c : ascii) : is_digit c = true → is_space c = false.
Proof.
  unfold is_digit, digit_value, is_space.
  destruct (N.leb_spec 48 (N_of_ascii c)); [|done].
  destruct (N.leb_spec (N_of_ascii c) 57); [|done]. intros _.
  destruct (N.leb_spec 9 (N_of_ascii c)), (N.leb_spec (N_of_ascii c) 13),
    (N.eqb_spec (N_of_ascii c) 32); simpl; try done; lia.
Qed.

Lemma is_digit_not_char (c c' : ascii) :
  is_digit c = true → is_digit c' = false → Ascii.eqb c c' = false.
Proof.
  intros Hc Hc'. destruct (Ascii.eqb_spec c c') as [->|]; [congruence | done].
Qed.

Lemma lstrip_digits (c : ascii) (s : string) :
  is_digit c = true → lstrip (String c s) = String c s.
Proof. intros Hc. simpl. by rewrite is_digit_not_space. Qed.

Lemma rstrip_digits_line (s : string) :
  string_forall is_digit s = true →
  rstrip (s +:+ String LF EmptyString) = s.
Proof.
  induction s as [|c s IH]; [done|].
  cbn [string_forall]. intros [Hc Hs]%andb_true_iff.
  rewrite string_app_cons. cbn [rstrip]. rewrite (IH Hs).
  destruct s; [|done]. by rewrite is_digit_not_space.
Qed.

Lemma digits_no_line_end (c : ascii) :
  is_digit c = true → Ascii.eqb c LF = false ∧ Ascii.eqb c CR = false.
Proof. intros Hc. split; by apply is_digit_not_char. Qed.

Lemma file_lines_digits_line (s rest : string) :
  string_forall is_digit s = true →
  file_lines (s +:+ String LF rest) = (s +:+ String LF EmptyString) :: file_lines rest.
Proof.
  induction s as [|c s IH]; [done|].
  cbn [string_forall]. intros [Hc Hs]%andb_true_iff.
  rewrite !string_app_cons. cbn [file_lines].
  destruct (digits_no_line_end c Hc) as [-> ->]. by rewrite (IH Hs).
Qed.

Lemma pretty_pos_go (p : positive) :
  pretty (Z.pos p) = pretty_N_go (N.pos p) EmptyString.
Proof. done. Qed.

(** Reading back a positive integer that was printed on a line. *)
Lemma float_of_decimal_pretty (p : positive) :
  float_of_decimal (pretty (Z.pos p) +:+ String LF EmptyString)
  = Ok (float_of_Z (Z.pos p)).
Proof.
  rewrite pretty_pos_go.
  pose proof (pretty_N_go_digits (N.pos p)) as Hdig.
  destruct (read_digits_pretty (N.pos p) 0 0) as (k & Hread & Hk).
  specialize (Hk ltac:(done)).
  unfold float_of_decimal, strip.
  destruct (pretty_N_go (N.pos p) EmptyString) as [|c s] eqn:Hs.
  { simpl in Hread. injection Hread as ? ?. lia. }
  cbn [string_forall] in Hdig. apply andb_true_iff in Hdig as [Hc Hdig].
  rewrite string_app_cons, lstrip_digits by done.
  rewrite <- string_app_cons, rstrip_digits_line
    by (cbn [string_forall]; by rewrite Hc, Hdig).
  rewrite !(is_digit_not_char c) by done.
  rewrite Hread.
  destruct k as [|k]; [lia|]. cbn [Nat.add Nat.eqb].
  by rewrite N.mul_0_l, N.add_0_l.
Qed.

(** ** Random weights *)

Lemma lcg_draws_range (g low high : Z) (size : nat) :
  (low < high)%Z →
  length (lcg_draws g low high size).1 = size
  ∧ Forall (λ z, (low <= z < high)%Z) (lcg_draws g low high size).1.
Proof.
  intros Hlh. revert g. induction size as [|size IH]; intros g; simpl.
  - split; [done | constructor].
  - destruct (IH (lcg_next g)) as [Hlen Hall].
    destruct (lcg_draws (lcg_next g) low high size) as [l g']. simpl in *.
    split; [by rewrite Hlen|]. constructor; [|done].
    pose proof (Z.mod_pos_bound g (high - low) ltac:(lia)). lia.
Qed.

Lemma lcg_randint_contract : randint_contract lcg_randint.
Proof.
  intros g low high size Hlow Hlh Hhigh. unfold lcg_randint.
  destruct (Z.leb_spec (- 2 ^ 63) low); [|lia].
  destruct (Z.ltb_spec low high); [|lia].
  destruct (Z.leb_spec high (2 ^ 63)); [|lia]. simpl.
  destruct (lcg_draws_range g low high size Hlh) as [Hlen Hall].
  destruct (lcg_draws g low high size) as [l g']. by exists l, g'.
Qed.

Lemma float_of_decimal_reads_integers (w : Z) :
  float_reads_integers float_of_decimal w.
Proof.
  intros [|p|p] Hz; [lia| |lia]. apply float_of_decimal_pretty.
Qed.

(** *** The file that is written *)

Lemma write_body_in_range (number_list : list Z) (outfile : string)
    (i : nat) (x : Z) :
  number_list !! i = Some x →
  write_body number_list outfile i = Ok (outfile +:+ text_line (pretty x)).
Proof. intros Hx. unfold write_body, getitem. by rewrite Hx. Qed.

Lemma write_loop (pre l : list Z) (outfile : string) :
  for_each (write_body (pre ++ l)) (seq (length pre) (length l)) outfile
  = Ok (outfile +:+ lines_text l).
Proof.
  revert pre outfile. induction l as [|z l IH]; intros pre outfile.
  - simpl. by rewrite string_app_nil_r.
  - cbn [length seq for_each].
    rewrite (write_body_in_range _ _ _ z) by (by apply list_lookup_middle).
    cbn [mbind result_bind].
    rewrite (cons_middle z pre l), app_assoc.
    replace (S (length pre)) with (length (pre ++ [z]))
      by (rewrite length_app; simpl; lia).
    rewrite IH. cbn [lines_text foldr]. by rewrite string_app_assoc.
Qed.

Lemma pretty_digits (z : Z) :
  (1 <= z)%Z → string_forall is_digit (pretty z) = true.
Proof.
  intros Hz. destruct z as [|p|p]; [lia| |lia].
  rewrite pretty_pos_go. apply pretty_N_go_digits.
Qed.

Lemma file_lines_lines_text (zs : list Z) :
  Forall (λ z, (1 <= z)%Z) zs →
  file_lines (lines_text zs) = (λ z, text_line (pretty z)) <$> zs.
Proof.
  induction 1 as [|z zs Hz _ IH]; [done|].
  cbn [lines_text foldr]. unfold text_line at 1.
  rewrite string_app_assoc, string_app_cons, string_app_nil_l.
  rewrite file_lines_digits_line by (by apply pretty_digits).
  rewrite fmap_cons. f_equal. exact IH.
Qed.

(** Reading the written lines back gives the numbers, as long as binary64
    holds them exactly. *)
Lemma read_back (py_float : string → result spec_float) (w : Z) (zs : list Z) :
  float_reads_integers py_float w → (w <= 2 ^ 53)%Z →
  Forall (λ z, (1 <= z <= w)%Z) zs →
  map_result (line_outcome py_float) ((λ z, text_line (pretty z)) <$> zs)
  = Ok zs.
Proof.
  intros Hfloat Hw Hzs. apply map_result_Ok.
  apply Forall2_fmap_l, Forall_Forall2_diag.
  eapply Forall_impl; [exact Hzs|]. intros z Hz. cbn beta in Hz |- *.
  apply line_outcome_Ok. exists (float_of_Z z).
  split; [by apply Hfloat|]. apply integer_of_float_of_Z. lia.
Qed.

Lemma random_number_list_unfold {RNG : Type}
    (randint : RNG → Z → Z → nat → result (list Z * RNG))
    (g g' : RNG) (n : nat) (w : Z) (savefile : option string)
    (fs : gmap string string) (number_list : list Z) :
  randint g 1%Z (w + 1)%Z n = Ok (number_list, g') →
  length number_list = n →
  random_number_list RNG randint g n w savefile fs
  = Ok (number_list,
        match truthy savefile with
        | Some path => <[path := lines_text number_list]> fs
        | None => fs
        end,
        g').
Proof.
  intros Hdraw Hlen. unfold random_number_list. rewrite Hdraw.
  cbn [mbind result_bind]. destruct (truthy savefile) as [path|]; [|done].
  unfold range. rewrite <- Hlen.
  pose proof (write_loop [] number_list EmptyString) as Hloop.
  cbn [app length] in Hloop. rewrite Hloop. done.
Qed.

Example random_number_list_example :
  random_number_list Z lcg_randint 42%Z 3 100%Z (Some "numbers.txt") ∅
  = Ok ([43; 94; 21]%Z,
        <["numbers.txt" := text_line "43" +:+ text_line "94" +:+ text_line "21"]> ∅,
        7615522811268512075%Z).
Proof. by vm_compute. Qed.

(** C9, as the code has it.  For a weight range [w] from 1 to [2^63 - 1],
    the range of NumPy's integers, [random_number_list] returns [n]
    integers from 1 to [w]; with a path it writes one line for each, and
    when [w] is at most [2^53], so that binary64 holds every number
    exactly, [read_numbers_from_file] reads the same numbers back. *)
Theorem random_number_list_round_trip {RNG : Type}
    (randint : RNG → Z → Z → nat → result (list Z * RNG))
    (py_float : string → result spec_float)
    (g : RNG) (n : nat) (w : Z) (savefile : option string)
    (fs : gmap string string) :
  randint_contract randint →
  float_reads_integers py_float w →
  (1 <= w < 2 ^ 63)%Z →
  ∃ number_list fs' g',
    random_number_list RNG randint g n w savefile fs = Ok (number_list, fs', g')
    ∧ length number_list = n
    ∧ Forall (λ z, (1 <= z <= w)%Z) number_list
    ∧ (truthy savefile = None → fs' = fs)
    ∧ (∀ path, truthy savefile = Some path →
         ∃ content,
           fs' = <[path := content]> fs
           ∧ file_lines content = (λ z, text_line (pretty z)) <$> number_list
           ∧ length (file_lines content) = n
           ∧ ((w <= 2 ^ 53)%Z →
              read_numbers_from_file py_float fs' path = Ok number_list)).
Proof.
  intros Hrand Hfloat Hw.
  destruct (Hrand g 1%Z (w + 1)%Z n) as (l & g' & Hdraw & Hlen & Hrange);
    [lia..|].
  assert (Hl : Forall (λ z, (1 <= z <= w)%Z) l).
  { eapply Forall_impl; [exact Hrange|]. intros z Hz. cbn beta in Hz |- *. lia. }
  assert (Hpos : Forall (λ z, (1 <= z)%Z) l).
  { eapply Forall_impl; [exact Hl|]. intros z Hz. cbn beta in Hz |- *. lia. }
  eexists l, _, g'.
  split; [by apply random_number_list_unfold|].
  split; [done|]. split; [done|].
  split; [by intros ->|].
  intros path ->. exists (lines_text l).
  split; [done|]. rewrite file_lines_lines_text by done.
  split; [done|]. split; [by rewrite length_fmap|].
  intros Hw53.
  rewrite (read_numbers_from_file_unfold py_float _ path (lines_text l))
    by apply lookup_insert_eq.
  rewrite file_lines_lines_text by done.
  by apply (read_back py_float w).
Qed.

Lemma random_number_list_round_trip_witness :
  randint_contract lcg_randint
  ∧ float_reads_integers float_of_decimal 100
  ∧ (1 <= 100 < 2 ^ 63)%Z
  ∧ ∃ number_list fs' g',
      random_number_list Z lcg_randint 42%Z 3 100%Z (Some "numbers.txt") ∅
      = Ok (number_list, fs', g')
      ∧ length number_list = 3
      ∧ Forall (λ z, (1 <= z <= 100)%Z) number_list
      ∧ (truthy (Some "numbers.txt") = None → fs' = ∅)
      ∧ (∀ path, truthy (Some "numbers.txt") = Some path →
           ∃ content,
             fs' = <[path := content]> ∅
             ∧ file_lines content = (λ z, text_line (pretty z)) <$> number_list
             ∧ length (file_lines content) = 3
             ∧ ((100 <= 2 ^ 53)%Z →
                read_numbers_from_file float_of_decimal fs' path
                = Ok number_list)).
Proof.
  assert (Hw : (1 <= 100 < 2 ^ 63)%Z) by lia.
  split; [exact lcg_randint_contract|].
  split; [exact (float_of_decimal_reads_integers 100)|].
  split; [exact Hw|].
  exact (random_number_list_round_trip lcg_randint float_of_decimal
           42%Z 3 100%Z (Some "numbers.txt") ∅
           lcg_randint_contract (float_of_decimal_reads_integers 100) Hw).
Defined.

(** C9, as the specification states it for every [w >= 1], fails.  With
    [w = 2^53 + 1] the number [2^53 + 1] can be drawn; it is written as
    9007199254740993 and read back, through binary64, as 9007199254740992.
    With [w = 2^63] the bound [w + 1] is outside the integers of [randint],
    which raises. *)
Lemma random_number_list_round_trip_fails :
  randint_contract lcg_randint
  ∧ float_reads_integers float_of_decimal (2 ^ 53 + 1)
  ∧ (∃ fs' g',
       random_number_list Z lcg_randint (2 ^ 53)%Z 1 (2 ^ 53 + 1)%Z
                          (Some "numbers.txt") ∅
       = Ok ([9007199254740993%Z], fs', g')
       ∧ fs' !! "numbers.txt" = Some (text_line "9007199254740993")
       ∧ read_numbers_from_file float_of_decimal fs' "numbers.txt"
         = Ok [9007199254740992%Z])
  ∧ random_number_list Z lcg_randint 0%Z 1 (2 ^ 63)%Z None ∅
    = Raise ValueError.
Proof.
  split; [exact lcg_randint_contract|].
  split; [exact (float_of_decimal_reads_integers (2 ^ 53 + 1))|].
  split; [|by vm_compute].
  eexists _, _. split; [by vm_compute|]. split; by vm_compute.
Qed.

(** * Part III: further properties of the code *)

(** ** [check_disjoint] *)

(** X1.  [check_disjoint] raises exactly when [sol] has fewer entries than
    there are subsets, and what it raises then is [IndexError]. *)
Theorem check_disjoint_raises_iff_short `{Countable E}
    (sol : list Z) (list_of_subsets : list (list E)) :
  (raises (check_disjoint sol list_of_subsets)
   ↔ length sol < length list_of_subsets)
  ∧ (∀ e, check_disjoint sol list_of_subsets = Raise e → e = IndexError).
Proof.
  destruct (decide (length sol < length list_of_subsets)) as [Hshort|Hlong].
  - rewrite (check_disjoint_short sol list_of_subsets Hshort).
    split; [done|]. by intros e [= <-].
  - destruct (check_disjoint_ok sol list_of_subsets ltac:(lia)) as (b & -> & _).
    split; [|done]. simpl. split; [done | lia].
Qed.

(** X2.  A selection inside a selection of disjoint subsets is again one:
    when [check_disjoint] answers [True] for [sol], it answers [True] for
    every [sol'] that selects only subsets [sol] selects. *)
Theorem check_disjoint_subselection `{Countable E}
    (sol sol' : list Z) (list_of_subsets : list (list E)) :
  length list_of_subsets ≤ length sol →
  length list_of_subsets ≤ length sol' →
  (∀ i, i < length list_of_subsets →
        sol' !! i = Some 1%Z → sol !! i = Some 1%Z) →
  check_disjoint sol list_of_subsets = Ok true →
  check_disjoint sol' list_of_subsets = Ok true.
Proof.
  intros Hlen Hlen' Hsub Htrue.
  destruct (check_disjoint_ok sol list_of_subsets Hlen) as (b & Hb & Hiff).
  destruct (check_disjoint_ok sol' list_of_subsets Hlen') as (b' & Hb' & Hiff').
  rewrite Hb'. f_equal. apply Hiff'. intros i j Hi Hj Hne Hsi Hsj.
  assert (b = true) as -> by congruence.
  apply (proj1 Hiff eq_refl); auto.
Qed.

Lemma check_disjoint_subselection_witness :
  check_disjoint [0; 0; 1]%Z example_subsets = Ok true.
Proof.
  apply (check_disjoint_subselection [1; 0; 1]%Z [0; 0; 1]%Z example_subsets).
  - simpl; lia.
  - simpl; lia.
  - intros [|[|[|i]]] Hi; simpl; try done; lia.
  - by vm_compute.
Defined.

(** ** [sample_most_likely] *)

Lemma argmax_scan_bound (ip : list spec_float) (mp : spec_float)
    (max_ind i : nat) :
  max_ind < i → argmax_scan mp max_ind i ip < i + length ip.
Proof.
  revert mp max_ind i. induction ip as [|x ip IH]; intros mp max_ind i Hi.
  - simpl. lia.
  - cbn [argmax_scan length]. destruct (is_nan mp); [lia|].
    destruct (SFleb x mp).
    + specialize (IH mp max_ind (S i) ltac:(lia)). lia.
    + specialize (IH x i (S i) ltac:(lia)). lia.
Qed.

Lemma np_argmax_bound (a : list spec_float) :
  0 < length a → ∃ k, np_argmax a = Ok k ∧ k < length a.
Proof.
  destruct a as [|x a]; simpl; [lia|]. intros _.
  eexists. split; [done|].
  pose proof (argmax_scan_bound a x 0 1 ltac:(lia)). lia.
Qed.

Lemma np_argmax_empty (a : list spec_float) :
  raises (np_argmax a) ↔ a = [].
Proof. by destruct a. Qed.

Lemma bits_of_length (n k : nat) : length (bits_of n k) = n.
Proof. unfold bits_of, range. by rewrite length_fmap, length_seq. Qed.

Lemma bits_of_binary (n k : nat) : Forall binary (bits_of n k).
Proof.
  unfold bits_of. apply Forall_fmap, Forall_true. intros i. cbn.
  destruct (Z.testbit _ _); [by right | by left].
Qed.

Lemma normalised_counts_length (n : nat) (counts : gmap string N)
    (v : list spec_float) :
  normalised_counts n counts = Ok v → length v = 2 ^ n.
Proof.
  rewrite normalised_counts_unfold.
  destruct (map_result _ _) as [cs|e] eqn:Hcs; [|done].
  cbn [mbind result_bind].
  destruct (float_of_int _) as [t|e]; [|done]. cbn [mbind result_bind].
  intros [= <-]. apply map_result_length in Hcs.
  unfold range in Hcs. by rewrite length_fmap, Hcs, length_seq.
Qed.

Lemma map_result_Ok_all {X Y : Type} (f : X → result Y) (l : list X)
    (ys : list Y) (x : X) :
  map_result f l = Ok ys → x ∈ l → ∃ y, f x = Ok y.
Proof.
  revert ys. induction l as [|x' l IH]; intros ys Hl Hx.
  - by apply elem_of_nil in Hx.
  - cbn [map_result] in Hl.
    destruct (f x') as [y|e] eqn:Hx'; [|done]. cbn [mbind result_bind] in Hl.
    destruct (map_result f l) as [ys'|e]; [|done].
    apply elem_of_cons in Hx as [->|Hx]; [by exists y | by eapply IH].
Qed.

(** The dictionary path raises exactly when a conversion does. *)
Lemma normalised_counts_raises (n : nat) (counts : gmap string N) :
  raises (normalised_counts n counts)
  ↔ (∃ i, i < 2 ^ n ∧ raises (float_of_int (Z.of_N (count_of n counts i))))
    ∨ raises (float_of_int (Z.of_N (total_count n counts))).
Proof.
  rewrite normalised_counts_unfold.
  destruct (map_result _ _) as [cs|e] eqn:Hcs; cbn [mbind result_bind].
  - destruct (float_of_int (Z.of_N (total_count n counts))) as [t|e] eqn:Ht;
      cbn [mbind result_bind raises].
    + split; [done|]. intros [(i & Hi & Hraise)|[]].
      destruct (map_result_Ok_all _ _ cs i Hcs) as [y Hy].
      { apply elem_of_seq. lia. }
      by rewrite Hy in Hraise.
    + split; [by right | done].
  - cbn [raises]. split; [|done]. intros _. left.
    apply map_result_Raise in Hcs as (i & Hi & Hraise).
    apply elem_of_seq in Hi. exists i. split; [lia|]. by rewrite Hraise.
Qed.

Lemma count_of_le_total (n : nat) (counts : gmap string N) (i : nat) :
  i < 2 ^ n → (count_of n counts i ≤ total_count n counts)%N.
Proof.
  intros Hi. unfold total_count, range.
  assert (Hin : i ∈ seq 0 (2 ^ n)) by (apply elem_of_seq; lia).
  revert Hin. generalize (seq 0 (2 ^ n)) as l.
  induction l as [|j l IH]; intros Hin.
  - by apply elem_of_nil in Hin.
  - rewrite fmap_cons. cbn [foldr].
    apply elem_of_cons in Hin as [->|Hin]; [lia|].
    specialize (IH Hin). lia.
Qed.

(** Up to [2^53] the conversion is exact, and so does not raise. *)
Lemma float_of_int_exact (z : Z) :
  (0 <= z <= 2 ^ 53)%Z → float_of_int z = Ok (float_of_Z z).
Proof.
  intros Hz. pose proof (integer_of_float_of_Z z ltac:(lia)) as Hint.
  unfold float_of_int. by destruct (float_of_Z z).
Qed.

Lemma sample_most_likely_sparse_Ok
    (hypot : spec_float → spec_float → spec_float)
    (n : nat) (counts : gmap string N) (v : list spec_float) :
  normalised_counts n counts = Ok v →
  ∃ x, sample_most_likely hypot n (Sparse counts) = Ok x.
Proof.
  intros Hv. rewrite sample_most_likely_unfold. cbn [dense_of].
  rewrite Hv. cbn [mbind result_bind].
  destruct (np_argmax_bound (np_abs hypot <$> (Real <$> v))) as (k & -> & _).
  - rewrite !length_fmap, (normalised_counts_length n counts v Hv).
    pose proof (Nat.pow_nonzero 2 n). lia.
  - by eexists.
Qed.

(** The bits of an integer, least significant first, write it back modulo
    [2^n]. *)
Lemma bits_value_testbits (n : nat) (z : Z) :
  bits_value ((λ i, Z.b2z (Z.testbit z (Z.of_nat i))) <$> seq 0 n)
  = (z `mod` 2 ^ Z.of_nat n)%Z.
Proof.
  revert z. induction n as [|n IH]; intros z.
  - simpl. by rewrite Z.mod_1_r.
  - cbn [seq]. rewrite fmap_cons, <- fmap_S_seq, <- list_fmap_compose.
    cbn [bits_value foldr]. fold (bits_value).
    assert (Hshift : ((λ i, Z.b2z (Z.testbit z (Z.of_nat i))) ∘ S <$> seq 0 n)
                     = ((λ i, Z.b2z (Z.testbit (Z.div2 z) (Z.of_nat i))) <$> seq 0 n)).
    { apply list_fmap_ext. intros _ i _. cbn.
      rewrite Z.div2_spec, Z.shiftr_spec by lia. do 2 f_equal. lia. }
    unfold bits_value in IH |- *. rewrite Hshift, IH.
    rewrite Nat2Z.inj_succ, Z.pow_succ_r by lia.
    change (Z.of_nat 0) with 0%Z. rewrite Z.bit0_odd.
    pose proof (Z.div2_odd z) as Hz.
    assert (Hp : (0 < 2 ^ Z.of_nat n)%Z) by (apply Z.pow_pos_nonneg; lia).
    pose proof (Z.mod_pos_bound (Z.div2 z) (2 ^ Z.of_nat n) Hp) as Hb.
    pose proof (Z.div_mod (Z.div2 z) (2 ^ Z.of_nat n) ltac:(lia)) as Hd.
    apply (Z.mod_unique_pos _ _ (Z.div2 z `div` 2 ^ Z.of_nat n)).
    + destruct (Z.odd z); simpl Z.b2z in *; lia.
    + destruct (Z.odd z); simpl Z.b2z in *; nia.
Qed.

Lemma count_of_insert_other (n : nat) (counts : gmap string N)
    (key : string) (c : N) (i : nat) :
  binary_repr i n ≠ key →
  count_of n (<[key := c]> counts) i = count_of n counts i.
Proof. intros Hne. unfold count_of. by rewrite lookup_insert_ne. Qed.

Lemma normalised_counts_insert_other (n : nat) (counts : gmap string N)
    (key : string) (c : N) :
  (∀ i, i < 2 ^ n → binary_repr i n ≠ key) →
  normalised_counts n (<[key := c]> counts) = normalised_counts n counts.
Proof.
  intros Hkey.
  assert (Hcount : ∀ i, i ∈ range (2 ^ n) →
            count_of n (<[key := c]> counts) i = count_of n counts i).
  { intros i Hi. apply elem_of_seq in Hi. apply count_of_insert_other, Hkey. lia. }
  assert (Htotal : total_count n (<[key := c]> counts) = total_count n counts).
  { unfold total_count. f_equal. apply list_fmap_ext.
    intros k i Hi. apply Hcount. by eapply list_elem_of_lookup_2. }
  rewrite !normalised_counts_unfold, Htotal.
  rewrite (map_result_ext _ (λ i, float_of_int (Z.of_N (count_of n counts i))));
    [done|].
  intros i Hi. by rewrite Hcount.
Qed.

(** X3.  Whatever [sample_most_likely] returns is a vector of [n] zeros
    and ones.  On a dictionary it raises exactly when a count it looks
    up, or the total of these counts, is too large for a double, and then
    with [OverflowError]; with a total of at most [2^53] it always
    returns.  On an array it raises exactly when the array is empty, and
    then with [ValueError]. *)
Theorem sample_most_likely_shape
    (hypot : spec_float → spec_float → spec_float)
    (n : nat) (state_vector : state_vector_input) :
  (∀ x, sample_most_likely hypot n state_vector = Ok x →
        length x = n ∧ Forall binary x)
  ∧ (∀ counts, state_vector = Sparse counts →
       (raises (sample_most_likely hypot n state_vector)
        ↔ (∃ i, i < 2 ^ n
                ∧ raises (float_of_int (Z.of_N (count_of n counts i))))
          ∨ raises (float_of_int (Z.of_N (total_count n counts))))
       ∧ (∀ e, sample_most_likely hypot n state_vector = Raise e →
               e = OverflowError)
       ∧ ((total_count n counts <= 2 ^ 53)%N →
          ∃ x, sample_most_likely hypot n state_vector = Ok x))
  ∧ (∀ v, state_vector = Dense v →
          (raises (sample_most_likely hypot n state_vector) ↔ v = [])
          ∧ (v = [] → sample_most_likely hypot n state_vector = Raise ValueError)).
Proof.
  split; [|split].
  - rewrite sample_most_likely_unfold. intros x Hx.
    destruct (dense_of n state_vector) as [v|e]; [|done].
    cbn [mbind result_bind] in Hx.
    destruct (np_argmax _) as [k|e]; [|done].
    injection Hx as <-. split; [apply bits_of_length | apply bits_of_binary].
  - intros counts ->.
    assert (Hraise : raises (sample_most_likely hypot n (Sparse counts))
                     ↔ raises (normalised_counts n counts)).
    { destruct (normalised_counts n counts) as [v|e] eqn:Hv.
      - destruct (sample_most_likely_sparse_Ok hypot n counts v Hv) as [x ->].
        done.
      - rewrite sample_most_likely_unfold. cbn [dense_of]. by rewrite Hv. }
    split; [by rewrite Hraise, normalised_counts_raises|]. split.
    + intros e. destruct (normalised_counts n counts) as [v|e'] eqn:Hv.
      * by destruct (sample_most_likely_sparse_Ok hypot n counts v Hv) as [x ->].
      * rewrite sample_most_likely_unfold. cbn [dense_of]. rewrite Hv.
        cbn [mbind result_bind]. intros [= <-].
        by apply (normalised_counts_Raise n counts).
    + intros Htotal.
      destruct (sample_most_likely hypot n (Sparse counts)) as [x|e] eqn:Hs;
        [by exists x|].
      assert (Hr : raises (normalised_counts n counts)) by (by apply Hraise).
      apply normalised_counts_raises in Hr as [(i & Hi & Hr)|Hr].
      * pose proof (count_of_le_total n counts i Hi).
        rewrite float_of_int_exact in Hr by lia. done.
      * rewrite float_of_int_exact in Hr by lia. done.
  - intros v ->. rewrite sample_most_likely_unfold. cbn [dense_of].
    destruct v as [|a v]; [done|].
    simpl. split; [|done]. split; [done | by intros ?].
Qed.

(** X4.  The vector [sample_most_likely] returns for a non-empty array
    writes, least significant bit first, the index [k] that [np.argmax]
    picked, reduced modulo [2^n]: it is [k] itself when the array has at
    most [2^n] entries, and a longer array loses the high bits of [k]
    without any error. *)
Theorem sample_most_likely_index
    (hypot : spec_float → spec_float → spec_float)
    (n : nat) (v : list amplitude) :
  0 < length v →
  ∃ k x,
    np_argmax (np_abs hypot <$> v) = Ok k
    ∧ k < length v
    ∧ sample_most_likely hypot n (Dense v) = Ok x
    ∧ bits_value x = (Z.of_nat k `mod` 2 ^ Z.of_nat n)%Z
    ∧ (length v ≤ 2 ^ n → bits_value x = Z.of_nat k).
Proof.
  intros Hlen.
  destruct (np_argmax_bound (np_abs hypot <$> v)) as (k & Hk & Hbound).
  { by rewrite length_fmap. }
  rewrite length_fmap in Hbound.
  exists k, (bits_of n k). split; [done|]. split; [done|].
  split; [rewrite sample_most_likely_unfold; cbn [dense_of mbind result_bind];
          by rewrite Hk|].
  assert (Hval : bits_value (bits_of n k) = (Z.of_nat k `mod` 2 ^ Z.of_nat n)%Z)
    by apply bits_value_testbits.
  split; [done|]. intros Hle. rewrite Hval. apply Z.mod_small.
  split; [lia|].
  assert (Z.of_nat k < Z.of_nat (2 ^ n))%Z by lia.
  by rewrite Nat2Z.inj_pow in *.
Qed.

Lemma sample_most_likely_index_witness :
  ∃ k x,
    np_argmax (np_abs naive_hypot <$> example_amplitudes) = Ok k
    ∧ k < length example_amplitudes
    ∧ sample_most_likely naive_hypot 1 (Dense example_amplitudes) = Ok x
    ∧ bits_value x = (Z.of_nat k `mod` 2 ^ Z.of_nat 1)%Z
    ∧ (length example_amplitudes ≤ 2 ^ 1 → bits_value x = Z.of_nat k).
Proof.
  apply (sample_most_likely_index naive_hypot 1 example_amplitudes).
  simpl; lia.
Defined.

(** X5.  A key of the dictionary that is not a string of [n] binary digits
    is never looked up: with or without it the result is the same. *)
Theorem sample_most_likely_ignores_other_keys
    (hypot : spec_float → spec_float → spec_float)
    (n : nat) (counts : gmap string N) (key : string) (c : N) :
  0 < n →
  String.length key ≠ n →
  normalised_counts n (<[key := c]> counts) = normalised_counts n counts
  ∧ sample_most_likely hypot n (Sparse (<[key := c]> counts))
    = sample_most_likely hypot n (Sparse counts).
Proof.
  intros Hn Hkey.
  assert (Hnorm : normalised_counts n (<[key := c]> counts)
                  = normalised_counts n counts).
  { apply normalised_counts_insert_other. intros i Hi <-.
    by rewrite binary_repr_length in Hkey. }
  split; [done|]. rewrite !sample_most_likely_unfold. cbn [dense_of].
  by rewrite Hnorm.
Qed.

Lemma sample_most_likely_ignores_other_keys_witness :
  normalised_counts 2 (<["101" := 9%N]> (<["01" := 3%N]> ∅))
  = normalised_counts 2 (<["01" := 3%N]> ∅)
  ∧ sample_most_likely naive_hypot 2 (Sparse (<["101" := 9%N]> (<["01" := 3%N]> ∅)))
    = sample_most_likely naive_hypot 2 (Sparse (<["01" := 3%N]> ∅)).
Proof.
  apply (sample_most_likely_ignores_other_keys naive_hypot 2
           (<["01" := 3%N]> ∅) "101" 9%N).
  - lia.
  - simpl. lia.
Defined.

(** X6.  The vector that [sample_most_likely] returns for as many qubits
    as there are subsets, complemented by [get_solution], always has an
    entry for every subset: [check_disjoint] answers on it and never
    raises. *)
Theorem decoded_solution_checks `{Countable E}
    (hypot : spec_float → spec_float → spec_float)
    (state_vector : state_vector_input) (list_of_subsets : list (list E))
    (x : list Z) :
  sample_most_likely hypot (length list_of_subsets) state_vector = Ok x →
  length (get_solution x) = length list_of_subsets
  ∧ Forall binary (get_solution x)
  ∧ ∃ b, check_disjoint (get_solution x) list_of_subsets = Ok b.
Proof.
  rewrite sample_most_likely_unfold. intros Hx.
  destruct (dense_of _ _) as [v|e]; [|done]. cbn [mbind result_bind] in Hx.
  destruct (np_argmax _) as [k|e]; [|done]. injection Hx as <-.
  assert (Hlen : length (get_solution (bits_of (length list_of_subsets) k))
                 = length list_of_subsets).
  { unfold get_solution. by rewrite length_fmap, bits_of_length. }
  split; [done|]. split.
  - unfold get_solution. apply Forall_fmap.
    eapply Forall_impl; [apply bits_of_binary|].
    intros b [->| ->]; [by right | by left].
  - destruct (check_disjoint_ok (get_solution (bits_of (length list_of_subsets) k))
                list_of_subsets ltac:(lia)) as (b & Hb & _).
    by exists b.
Qed.

Lemma decoded_solution_checks_witness :
  length (get_solution [1; 0; 0]%Z) = length example_subsets
  ∧ Forall binary (get_solution [1; 0; 0]%Z)
  ∧ ∃ b, check_disjoint (get_solution [1; 0; 0]%Z) example_subsets = Ok b.
Proof.
  apply (decoded_solution_checks naive_hypot (Dense example_amplitudes)
           example_subsets [1; 0; 0]%Z).
  by vm_compute.
Defined.

(** ** The value of the operator on a basis state *)

(** ** The value of the operator on a basis state *)

Lemma terms_value_app (l1 l2 : list (Q * Pauli)) (x : list Z) :
  (terms_value (l1 ++ l2) x == terms_value l1 x + terms_value l2 x)%Q.
Proof.
  induction l1 as [|t l1 IH]; simpl.
  - ring.
  - rewrite IH. ring.
Qed.

(** Merging terms with the same label does not change the value: the
    operator is worth on [x] what the list it was given is worth. *)
Lemma terms_value_merge_term (t : Q * Pauli) (new_paulis : list (Q * Pauli))
    (x : list Z) :
  (terms_value (merge_term t new_paulis) x
   == terms_value new_paulis x + t.1 * inject_Z (pauli_value t.2 x))%Q.
Proof.
  induction new_paulis as [|u rest IH]; cbn [merge_term].
  - simpl. ring.
  - destruct (decide (to_label u.2 = to_label t.2)) as [Heq|Hne].
    + cbn [terms_value foldr fst snd]. unfold pauli_value. rewrite Heq. ring.
    + cbn [terms_value foldr]. fold (terms_value (merge_term t rest) x).
      fold (terms_value rest x). rewrite IH. ring.
Qed.

Lemma terms_value_simplify_paulis (terms : list (Q * Pauli)) (x : list Z) :
  (terms_value (simplify_paulis terms) x == terms_value terms x)%Q.
Proof.
  unfold simplify_paulis.
  assert (Hgen : ∀ new_paulis,
            (terms_value
               (fold_left (λ new_paulis t, merge_term t new_paulis) terms new_paulis) x
             == terms_value new_paulis x + terms_value terms x)%Q).
  { induction terms as [|t terms IH]; intros new_paulis; cbn [fold_left].
    - simpl. ring.
    - rewrite IH, terms_value_merge_term. cbn [terms_value foldr].
      fold (terms_value terms x). ring. }
  rewrite Hgen. simpl. ring.
Qed.

(** The product of the letters of a label of I and Z. *)
Lemma label_value_ext (qs qs' : list nat) (s : nat) (x : list Z) :
  (∀ k, s ≤ k < s + length x → (k ∈ qs ↔ k ∈ qs')) →
  foldr Z.mul 1%Z
    (zip_with letter_value
       ((λ k, if bool_decide (k ∈ qs) then PZ else PI) <$> seq s (length x)) x)
  = foldr Z.mul 1%Z
    (zip_with letter_value
       ((λ k, if bool_decide (k ∈ qs') then PZ else PI) <$> seq s (length x)) x).
Proof.
  revert s. induction x as [|b x IH]; intros s Hext; [done|].
  cbn [length seq]. rewrite !fmap_cons. cbn [zip_with foldr].
  rewrite (IH (S s)) by (intros k Hk; apply Hext; simpl; lia).
  rewrite (bool_decide_ext (s ∈ qs) (s ∈ qs')) by (apply Hext; simpl; lia).
  done.
Qed.

Lemma label_value_nil (s : nat) (x : list Z) :
  foldr Z.mul 1%Z
    (zip_with letter_value
       ((λ k, if bool_decide (k ∈ @nil nat) then PZ else PI) <$> seq s (length x)) x)
  = 1%Z.
Proof.
  revert s. induction x as [|b x IH]; intros s; [done|].
  cbn [length seq]. rewrite fmap_cons. cbn [zip_with foldr].
  rewrite IH. rewrite bool_decide_eq_false_2 by (by intros ?%elem_of_nil).
  done.
Qed.

Lemma label_value_cons (qs : list nat) (i s : nat) (x : list Z) (b : Z) :
  i ∉ qs → s ≤ i → x !! (i - s) = Some b →
  foldr Z.mul 1%Z
    (zip_with letter_value
       ((λ k, if bool_decide (k ∈ i :: qs) then PZ else PI) <$> seq s (length x)) x)
  = ((1 - 2 * b)
     * foldr Z.mul 1%Z
         (zip_with letter_value
            ((λ k, if bool_decide (k ∈ qs) then PZ else PI) <$> seq s (length x)) x))%Z.
Proof.
  intros Hi. revert s. induction x as [|b0 x IH]; intros s Hs Hb; [done|].
  cbn [length seq]. rewrite !fmap_cons. cbn [zip_with foldr].
  destruct (decide (i = s)) as [->|Hne].
  - rewrite Nat.sub_diag in Hb. injection Hb as ->.
    rewrite bool_decide_eq_true_2 by left.
    rewrite (bool_decide_eq_false_2 (s ∈ qs)) by done.
    rewrite (label_value_ext (s :: qs) qs (S s) x).
    + cbn [letter_value]. lia.
    + intros k Hk. rewrite elem_of_cons. split; [intros [->|]; [lia|done] | by right].
  - rewrite (IH (S s)); [|lia|].
    + rewrite (bool_decide_ext (s ∈ i :: qs) (s ∈ qs)).
      * lia.
      * rewrite elem_of_cons. split; [intros [->|]; done | by right].
    + replace (i - s) with (S (i - S s)) in Hb by lia. done.
Qed.

Lemma pauli_value_z_term (n : nat) (qs : list nat) (x : list Z) :
  length x = n →
  pauli_value (z_term n qs) x
  = foldr Z.mul 1%Z
      (zip_with letter_value
         ((λ k, if bool_decide (k ∈ qs) then PZ else PI) <$> seq 0 (length x)) x).
Proof. intros <-. unfold pauli_value. by rewrite to_label_z_term. Qed.

Lemma pauli_value_single (n i : nat) (x : list Z) (b : Z) :
  length x = n → x !! i = Some b →
  pauli_value (z_term n [i]) x = (1 - 2 * b)%Z.
Proof.
  intros Hn Hb. rewrite pauli_value_z_term by done.
  rewrite (label_value_cons [] i 0 x b).
  - rewrite label_value_nil. lia.
  - by intros ?%elem_of_nil.
  - lia.
  - by rewrite Nat.sub_0_r.
Qed.

Lemma pauli_value_pair (n i j : nat) (x : list Z) (bi bj : Z) :
  length x = n → i ≠ j → x !! i = Some bi → x !! j = Some bj →
  pauli_value (z_term n [i; j]) x = ((1 - 2 * bi) * (1 - 2 * bj))%Z.
Proof.
  intros Hn Hij Hbi Hbj. rewrite pauli_value_z_term by done.
  rewrite (label_value_cons [j] i 0 x bi).
  - rewrite (label_value_cons [] j 0 x bj).
    + rewrite label_value_nil. lia.
    + by intros ?%elem_of_nil.
    + lia.
    + by rewrite Nat.sub_0_r.
  - by intros ->%list_elem_of_singleton.
  - lia.
  - by rewrite Nat.sub_0_r.
Qed.

Lemma get_solution_selects (x : list Z) (i : nat) (b : Z) :
  x !! i = Some b →
  get_solution x !! i = Some 1%Z ↔ b = 0%Z.
Proof.
  intros Hb. unfold get_solution. rewrite list_lookup_fmap, Hb. simpl.
  split; [intros [= ?]; lia | by intros ->].
Qed.

Section EnergyFacts.
Context `{Countable E}.
Variable subsets : list (list E).
Variable x : list Z.
Hypothesis Hlen : length x = length subsets.
Hypothesis Hbin : Forall binary x.

Lemma bit_of_state (i : nat) :
  i < length subsets → ∃ b, x !! i = Some b ∧ binary b.
Proof.
  intros Hi. destruct (lookup_lt_is_Some_2 x i ltac:(lia)) as [b Hb].
  exists b. split; [done|]. by eapply Forall_lookup_1.
Qed.

Lemma pairs_value (ps : list (nat * nat)) :
  Forall (λ p, p.2 < p.1 < length subsets) ps →
  (terms_value (ps ≫= pair_terms (length subsets) subsets) x
   + 2.5 * Qnat (length (filter (λ p, pair_intersects subsets p) ps))
   == 10 * Qnat (length (filter (conflict (get_solution x) subsets) ps)))%Q.
Proof.
  induction ps as [|[i j] ps IH]; intros Hps.
  - unfold Qnat; simpl. ring.
  - apply Forall_cons in Hps as [Hij Hps]. specialize (IH Hps). simpl in Hij.
    destruct (bit_of_state i ltac:(lia)) as (bi & Hbi & Hi).
    destruct (bit_of_state j ltac:(lia)) as (bj & Hbj & Hj).
    rewrite bind_cons, terms_value_app, !filter_cons.
    unfold pair_terms at 1.
    destruct (decide (conflict (get_solution x) subsets (i, j))) as [Hc|Hc];
      destruct (decide (Is_true (pair_intersects subsets (i, j)))) as [Hp|Hp].
    + apply Is_true_true in Hp. rewrite Hp.
      destruct Hc as (_ & Hsi & Hsj). cbn [fst snd] in Hsi, Hsj.
      apply (get_solution_selects x i bi Hbi) in Hsi.
      apply (get_solution_selects x j bj Hbj) in Hsj. subst bi bj.
      cbn [penalty_terms terms_value foldr fst snd].
      rewrite (pauli_value_pair _ i j x 0 0), (pauli_value_single _ i x 0),
        (pauli_value_single _ j x 0) by (done || lia).
      cbn [length]. rewrite !Qnat_S.
      change (1 - 2 * 0)%Z with 1%Z. change (inject_Z (1 * 1)) with 1%Q.
      change (inject_Z 1) with 1%Q. lra.
    + destruct Hc as (Hc & _). done.
    + apply Is_true_true in Hp. rewrite Hp.
      cbn [penalty_terms terms_value foldr fst snd].
      rewrite (pauli_value_pair _ i j x bi bj), (pauli_value_single _ i x bi),
        (pauli_value_single _ j x bj) by (done || lia).
      cbn [length]. rewrite !Qnat_S.
      assert (Hone : bi = 1%Z ∨ bj = 1%Z).
      { destruct Hi as [->| ->]; [|by left]. destruct Hj as [->| ->]; [|by right].
        destruct Hc. split; [by rewrite Hp|]. cbn [fst snd].
        by rewrite (get_solution_selects x i 0 Hbi), (get_solution_selects x j 0 Hbj). }
      destruct Hi as [->| ->], Hj as [->| ->]; try (destruct Hone; discriminate).
      * change (inject_Z ((1 - 2 * 0) * (1 - 2 * 1))) with (-1)%Q.
        change (inject_Z (1 - 2 * 0)) with 1%Q.
        change (inject_Z (1 - 2 * 1)) with (-1)%Q. lra.
      * change (inject_Z ((1 - 2 * 1) * (1 - 2 * 0))) with (-1)%Q.
        change (inject_Z (1 - 2 * 0)) with 1%Q.
        change (inject_Z (1 - 2 * 1)) with (-1)%Q. lra.
      * change (inject_Z ((1 - 2 * 1) * (1 - 2 * 1))) with 1%Q.
        change (inject_Z (1 - 2 * 1)) with (-1)%Q. lra.
    + apply Is_true_false in Hp. rewrite Hp. cbn [terms_value foldr]. lra.
Qed.

Lemma singles_value (idxs : list nat) :
  Forall (λ i, i < length subsets) idxs →
  (terms_value ((λ i, ((-0.5)%Q, z_term (length subsets) [i])) <$> idxs) x
   + -0.5 * Qnat (length idxs)
   == - Qnat (length (filter (λ i, get_solution x !! i = Some 1%Z) idxs)))%Q.
Proof.
  induction idxs as [|i idxs IH]; intros Hidxs.
  - unfold Qnat; simpl. ring.
  - apply Forall_cons in Hidxs as [Hi Hidxs]. specialize (IH Hidxs).
    destruct (bit_of_state i Hi) as (b & Hb & Hbit).
    rewrite fmap_cons, filter_cons. cbn [terms_value foldr fst snd length].
    rewrite (pauli_value_single _ i x b) by done. rewrite Qnat_S.
    fold (terms_value ((λ i, ((-0.5)%Q, z_term (length subsets) [i])) <$> idxs) x).
    destruct (decide _) as [Hs|Hs].
    + apply (get_solution_selects x i b Hb) in Hs. subst b.
      cbn [length]. rewrite Qnat_S.
      change (inject_Z (1 - 2 * 0)) with 1%Q. lra.
    + destruct Hbit as [->| ->].
      * destruct Hs. by apply (get_solution_selects x i 0 Hb).
      * change (inject_Z (1 - 2 * 1)) with (-1)%Q. lra.
Qed.

(** The value of the operator on [x], with the shift, is the cost of the
    selection [get_solution x]. *)
Lemma energy_closed :
  let r := get_setpacking_qubitops subsets in
  (energy r.1 x + r.2 == inject_Z (packing_cost (get_solution x) subsets))%Q.
Proof.
  intros r.
  destruct (get_setpacking_qubitops_closed subsets) as [Hterms Hshift].
  destruct (constraint_pass_closed subsets) as [Hterms' Hshift'].
  cbn zeta in *. fold r in Hterms, Hshift.
  unfold energy. rewrite Hterms, Hterms', terms_value_app, Hshift, Hshift'.
  assert (Hpairs := pairs_value (loop_pairs (length subsets))).
  assert (Hsingles := singles_value (range (length subsets))).
  replace (length (range (length subsets))) with (length subsets) in Hsingles
    by (unfold range; by rewrite length_seq).
  unfold packing_cost, conflicts, selected.
  rewrite <- Z.add_opp_r, inject_Z_plus, inject_Z_opp, inject_Z_mult.
  fold (Qnat (length (filter (conflict (get_solution x) subsets)
                        (loop_pairs (length subsets))))).
  fold (Qnat (length (filter (λ i, get_solution x !! i = Some 1%Z)
                        (range (length subsets))))).
  change (inject_Z 10) with 10%Q.
  rewrite <- Hpairs, <- Hsingles.
  - ring.
  - apply Forall_forall. intros i Hi. apply elem_of_seq in Hi. lia.
  - apply Forall_forall. intros [i j] Hij. by apply elem_of_loop_pairs in Hij.
Qed.

End EnergyFacts.

(** ** Selections and their cost *)

Lemma filter_length_mono {X : Type} (P P' : X → Prop)
    `{!∀ k, Decision (P k)} `{!∀ k, Decision (P' k)} (l : list X) :
  (∀ k, k ∈ l → P k → P' k) →
  length (filter P l) ≤ length (filter P' l).
Proof.
  induction l as [|k l IH]; intros Himp; [done|].
  rewrite !filter_cons.
  assert (IH' : length (filter P l) ≤ length (filter P' l)).
  { apply IH. intros k' Hk'. apply Himp. by right. }
  destruct (decide (P k)) as [HP|HP], (decide (P' k)) as [HP'|HP'];
    simpl; try lia.
  destruct HP'. apply Himp; [by left | done].
Qed.

Lemma filter_length_drop_one `{EqDecision X} (P P' : X → Prop)
    `{!∀ k, Decision (P k)} `{!∀ k, Decision (P' k)} (l : list X) (i : X) :
  NoDup l →
  (∀ k, k ∈ l → k ≠ i → P k → P' k) →
  length (filter P l) ≤ S (length (filter P' l)).
Proof.
  induction l as [|k l IH]; intros Hnd Himp; [simpl; lia|].
  apply NoDup_cons in Hnd as [Hk Hnd]. rewrite !filter_cons.
  destruct (decide (k = i)) as [->|Hne].
  - assert (length (filter P l) ≤ length (filter P' l)).
    { apply filter_length_mono. intros k Hin. apply Himp; [by right|].
      by intros ->. }
    destruct (decide (P i)), (decide (P' i)); simpl; lia.
  - assert (IH' : length (filter P l) ≤ S (length (filter P' l))).
    { apply IH; [done|]. intros k' Hk'. apply Himp. by right. }
    destruct (decide (P k)) as [HP|HP], (decide (P' k)) as [HP'|HP'];
      simpl; try lia.
    destruct HP'. apply Himp; [by left | done | done].
Qed.

Lemma filter_none {X : Type} (P : X → Prop) `{!∀ k, Decision (P k)}
    (l : list X) :
  Forall (λ k, ¬ P k) l → filter P l = [].
Proof.
  induction 1 as [|k l Hk _ IH]; [done|].
  rewrite filter_cons, IH. by destruct (decide (P k)).
Qed.

Lemma get_solution_twice (x : list Z) : get_solution (get_solution x) = x.
Proof.
  unfold get_solution. rewrite <- list_fmap_compose.
  rewrite <- (list_fmap_id x) at 2. apply list_fmap_ext. intros _ v _. simpl. lia.
Qed.

Lemma get_solution_binary (x : list Z) :
  Forall binary x → Forall binary (get_solution x).
Proof.
  intros Hx. unfold get_solution. apply Forall_fmap.
  eapply Forall_impl; [exact Hx|]. intros b [->| ->]; [by right | by left].
Qed.

Lemma get_solution_length (x : list Z) : length (get_solution x) = length x.
Proof. unfold get_solution. by rewrite length_fmap. Qed.

Section PackingFacts.
Context `{Countable E}.
Implicit Types (subsets : list (list E)) (sol : list Z).

(** No conflict: any two distinct selected subsets are disjoint. *)
Lemma conflicts_nil_iff sol subsets :
  conflicts sol subsets = []
  ↔ ∀ i j, i < length subsets → j < length subsets → i ≠ j →
           sol !! i = Some 1%Z → sol !! j = Some 1%Z →
           disjoint_subsets (subsets !!! i) (subsets !!! j).
Proof.
  unfold conflicts. split.
  - intros Hnil.
    assert (Hlow : ∀ i j, j < i < length subsets →
              sol !! i = Some 1%Z → sol !! j = Some 1%Z →
              intersects (subsets !!! i) (subsets !!! j) = false).
    { intros i j Hij Hi Hj.
      destruct (intersects (subsets !!! i) (subsets !!! j)) eqn:Hint; [|done].
      destruct (filter_nil_not_elem_of _ _ (i, j) Hnil).
      - split; [|done]. unfold pair_intersects. simpl. by rewrite Hint.
      - by apply elem_of_loop_pairs. }
    intros i j Hi Hj Hne Hsi Hsj. apply intersects_false.
    destruct (decide (j < i)).
    + apply Hlow; [lia|done|done].
    + rewrite intersects_comm. apply Hlow; [lia|done|done].
  - intros Hall. apply filter_none.
    apply Forall_forall. intros [i j] Hij (Hint & Hsi & Hsj).
    apply elem_of_loop_pairs in Hij. simpl in *.
    unfold pair_intersects in Hint. simpl in Hint.
    apply Is_true_true in Hint.
    assert (Hdis : intersects (subsets !!! i) (subsets !!! j) = false).
    { apply intersects_false. apply Hall; (lia || done). }
    congruence.
Qed.

Lemma check_disjoint_conflicts sol subsets :
  length subsets ≤ length sol →
  ∃ b, check_disjoint sol subsets = Ok b
       ∧ (b = true ↔ conflicts sol subsets = []).
Proof.
  intros Hlen. destruct (check_disjoint_ok sol subsets Hlen) as (b & Hb & Hiff).
  exists b. split; [done|]. by rewrite conflicts_nil_iff.
Qed.

(** Taking a subset out of the selection. *)
Lemma deselect_lookup sol (i k : nat) :
  <[i:=0%Z]> sol !! k = Some 1%Z → k ≠ i ∧ sol !! k = Some 1%Z.
Proof.
  intros Hk. apply list_lookup_insert_Some in Hk as [(-> & ? & _)|[? ?]]; done.
Qed.

Lemma deselect_cost sol subsets (i j : nat) :
  (i, j) ∈ conflicts sol subsets →
  (packing_cost (<[i:=0%Z]> sol) subsets < packing_cost sol subsets)%Z.
Proof.
  intros Hij. unfold packing_cost.
  assert (Hc : length (conflicts (<[i:=0%Z]> sol) subsets)
               < length (conflicts sol subsets)).
  { unfold conflicts in *.
    assert (Hsub : filter (conflict (<[i:=0%Z]> sol) subsets)
                     (loop_pairs (length subsets))
                   = filter (conflict (<[i:=0%Z]> sol) subsets)
                       (filter (conflict sol subsets) (loop_pairs (length subsets)))).
    { symmetry. apply list_filter_filter_l.
      intros p (Hint & Hp1 & Hp2). split; [done|].
      apply deselect_lookup in Hp1 as [_ Hp1], Hp2 as [_ Hp2]. done. }
    rewrite Hsub. apply (length_filter_lt _ _ (i, j)); [done|].
    intros (_ & Hi & _). simpl in Hi. by apply deselect_lookup in Hi as [? _]. }
  assert (Hs : length (selected sol (length subsets))
               ≤ S (length (selected (<[i:=0%Z]> sol) (length subsets)))).
  { unfold selected. apply (filter_length_drop_one _ _ _ i); [apply NoDup_seq|].
    intros k _ Hne Hk. by rewrite list_lookup_insert_ne. }
  lia.
Qed.

End PackingFacts.

(** ** The terms of the operator *)



Section ShapeFacts.
Context `{Countable E}.

(** A term of Z on the qubits [qs]: the shape of every term of the
    operator. *)
Lemma z_term_shape (n : nat) (qs : list nat) :
  pauli_w (z_term n qs) = np_zeros n
  ∧ length (pauli_v (z_term n qs)) = n
  ∧ Forall binary (pauli_v (z_term n qs))
  ∧ length (to_label (z_term n qs)) = n
  ∧ Forall (λ l, l = PI ∨ l = PZ) (to_label (z_term n qs)).
Proof.
  split; [done|]. rewrite to_label_z_term. unfold z_term, range. cbn [pauli_v].
  rewrite !length_fmap, length_seq.
  split; [done|]. split; [|split; [done|]].
  - apply Forall_fmap, Forall_true. intros k. simpl.
    destruct (bool_decide _); [by right | by left].
  - apply Forall_fmap, Forall_true. intros k. simpl.
    destruct (bool_decide _); [by right | by left].
Qed.


End ShapeFacts.

(** X7.  Every term of the list [get_setpacking_qubitops] builds, and
    every term of the operator made of it, is diagonal: over [n] qubits it
    has Z on one qubit or on two distinct qubits and the identity on the
    others, never an X or a Y.  In the list a coefficient is 2.5 or -0.5,
    and 2.5 when the term has two Z; the constructor of the operator adds
    the coefficients of equal terms up, and no two terms of the operator
    have the same label. *)
Theorem get_setpacking_qubitops_terms_diagonal `{Countable E}
    (list_of_subsets : list (list E)) :
  let n := length list_of_subsets in
  let r := get_setpacking_qubitops list_of_subsets in
  Forall (λ t,
            ((t.1 == 2.5)%Q ∨ (t.1 == -0.5)%Q)
            ∧ ((∃ i, i < n ∧ t.2 = z_term n [i])
               ∨ (∃ i j, j < i < n ∧ t.2 = z_term n [i; j]
                         ∧ (t.1 == 2.5)%Q))
            ∧ pauli_w t.2 = np_zeros n
            ∧ length (pauli_v t.2) = n
            ∧ Forall binary (pauli_v t.2)
            ∧ length (to_label t.2) = n
            ∧ Forall (λ l, l = PI ∨ l = PZ) (to_label t.2))
         (paulis r.1)
  ∧ Forall (λ t,
              ((∃ i, i < n ∧ t.2 = z_term n [i])
               ∨ (∃ i j, j < i < n ∧ t.2 = z_term n [i; j]))
              ∧ pauli_w t.2 = np_zeros n
              ∧ length (pauli_v t.2) = n
              ∧ Forall binary (pauli_v t.2)
              ∧ length (to_label t.2) = n
              ∧ Forall (λ l, l = PI ∨ l = PZ) (to_label t.2))
           (operator_terms r.1)
  ∧ NoDup ((λ t, to_label t.2) <$> operator_terms r.1).
Proof.
  intros n r.
  assert (Hlist : Forall (λ t,
            ((t.1 == 2.5)%Q ∨ (t.1 == -0.5)%Q)
            ∧ ((∃ i, i < n ∧ t.2 = z_term n [i])
               ∨ (∃ i j, j < i < n ∧ t.2 = z_term n [i; j]
                         ∧ (t.1 == 2.5)%Q))
            ∧ pauli_w t.2 = np_zeros n
            ∧ length (pauli_v t.2) = n
            ∧ Forall binary (pauli_v t.2)
            ∧ length (to_label t.2) = n
            ∧ Forall (λ l, l = PI ∨ l = PZ) (to_label t.2))
         (paulis r.1)).
  { subst r.
    destruct (get_setpacking_qubitops_closed list_of_subsets) as [Hterms _].
    destruct (constraint_pass_closed list_of_subsets) as [Hterms' _].
    cbn zeta in *. rewrite Hterms, Hterms'. fold n.
    assert (Hz : ∀ (c : Q) (qs : list nat),
              ((c == 2.5)%Q ∨ (c == -0.5)%Q) →
              ((∃ i, i < n ∧ qs = [i])
               ∨ (∃ i j, j < i < n ∧ qs = [i; j] ∧ (c == 2.5)%Q)) →
              (λ t : Q * Pauli,
                 ((t.1 == 2.5)%Q ∨ (t.1 == -0.5)%Q)
                 ∧ ((∃ i, i < n ∧ t.2 = z_term n [i])
                    ∨ (∃ i j, j < i < n ∧ t.2 = z_term n [i; j]
                              ∧ (t.1 == 2.5)%Q))
                 ∧ pauli_w t.2 = np_zeros n
                 ∧ length (pauli_v t.2) = n
                 ∧ Forall binary (pauli_v t.2)
                 ∧ length (to_label t.2) = n
                 ∧ Forall (λ l, l = PI ∨ l = PZ) (to_label t.2))
                (c, z_term n qs)).
    { intros c qs Hc Hqs. cbn [fst snd]. split; [done|]. split.
      - destruct Hqs as [(i & Hi & ->)|(i & j & Hij & -> & Hc')].
        + left. by exists i.
        + right. by exists i, j.
      - apply z_term_shape. }
    apply Forall_app. split.
    - apply Forall_forall. intros t Ht.
      apply list_elem_of_bind in Ht as ([i j] & Ht & Hij).
      apply elem_of_loop_pairs in Hij. unfold pair_terms in Ht.
      destruct (pair_intersects list_of_subsets (i, j)); [|by apply elem_of_nil in Ht].
      cbn [penalty_terms fst snd] in Ht.
      assert (Hc : (10 * 0.25 == 2.5)%Q) by reflexivity.
      unfold penalty_terms in Ht. rewrite !elem_of_cons in Ht.
      destruct Ht as [->|[->|[->|Ht]]]; [| | |by apply elem_of_nil in Ht].
      + apply Hz; [by left|]. right. by exists i, j.
      + apply Hz; [by left|]. left. exists i. split; [lia|done].
      + apply Hz; [by left|]. left. exists j. split; [lia|done].
    - apply Forall_fmap, Forall_forall. intros i Hi. apply elem_of_seq in Hi.
      apply Hz; [by right|]. left. exists i. split; [lia|done]. }
  split; [exact Hlist|]. split.
  - unfold operator_terms.
    apply (simplify_paulis_Forall
             (λ P, ((∃ i, i < n ∧ P = z_term n [i])
                    ∨ (∃ i j, j < i < n ∧ P = z_term n [i; j]))
                   ∧ pauli_w P = np_zeros n
                   ∧ length (pauli_v P) = n
                   ∧ Forall binary (pauli_v P)
                   ∧ length (to_label P) = n
                   ∧ Forall (λ l, l = PI ∨ l = PZ) (to_label P))).
    eapply Forall_impl; [exact Hlist|].
    intros t (_ & Hshape & Hrest). split; [|exact Hrest].
    destruct Hshape as [(i & Hi & Ht)|(i & j & Hij & Ht & _)].
    + left. by exists i.
    + right. by exists i, j.
  - unfold operator_terms, simplify_paulis.
    apply (simplify_labels (paulis r.1) []). constructor.
Qed.


Section SetsOnly.
Context `{Countable E}.

Lemma same_sets_lookup (subsets subsets' : list (list E)) (i : nat) :
  Forall2 (λ L L', (list_to_set L : gset E) = list_to_set L') subsets subsets' →
  (list_to_set (subsets !!! i) : gset E) = list_to_set (subsets' !!! i).
Proof.
  intros Hsame. revert i.
  induction Hsame as [|L L' subsets subsets' HL _ IH]; intros i; [done|].
  destruct i as [|i]; [exact HL | apply IH].
Qed.

Lemma same_sets_constraint_pass (subsets subsets' : list (list E))
    (n : nat) (acc : pauli_acc) :
  Forall2 (λ L L', (list_to_set L : gset E) = list_to_set L') subsets subsets' →
  constraint_pass n subsets acc = constraint_pass n subsets' acc.
Proof.
  intros Hsame. rewrite !constraint_pass_pairs.
  generalize (loop_pairs n) as ps. intros ps. revert acc.
  induction ps as [|[i j] ps IH]; intros acc; [done|].
  cbn [fold_left fst snd]. rewrite <- IH. f_equal.
  unfold constraint_body, intersects.
  by rewrite (same_sets_lookup subsets subsets' i Hsame),
    (same_sets_lookup subsets subsets' j Hsame).
Qed.

End SetsOnly.

(** X9.  The operator and the shift depend on the subsets only through
    the sets of their elements: the order of the elements of a subset and
    their repetitions change nothing. *)
Theorem get_setpacking_qubitops_sets_only `{Countable E}
    (list_of_subsets list_of_subsets' : list (list E)) :
  Forall2 (λ L L', (list_to_set L : gset E) = list_to_set L')
          list_of_subsets list_of_subsets' →
  get_setpacking_qubitops list_of_subsets
  = get_setpacking_qubitops list_of_subsets'.
Proof.
  intros Hsame. unfold get_setpacking_qubitops.
  rewrite <- (Forall2_length _ _ _ Hsame).
  by rewrite (same_sets_constraint_pass _ _ _ _ Hsame).
Qed.

Lemma get_setpacking_qubitops_sets_only_witness :
  get_setpacking_qubitops example_subsets
  = get_setpacking_qubitops [[2; 1; 2]; [3; 2]; [5; 4; 4]]%Z.
Proof.
  apply (get_setpacking_qubitops_sets_only example_subsets
           [[2; 1; 2]; [3; 2]; [5; 4; 4]]%Z).
  repeat constructor; by vm_compute.
Defined.

(** X10.  The operator is the Hamiltonian of the docstring.  With Z worth
    [(-1)^x[i]] on the basis state [x], the entry [get_solution x] gives
    to subset [i] is [(Z_i + 1) / 2], and the value of the operator on
    [x], with the shift added, is 10 times the number of intersecting
    pairs [get_solution x] selects, less the number of subsets it
    selects. *)
Theorem get_setpacking_qubitops_energy `{Countable E}
    (list_of_subsets : list (list E)) (x : list Z) :
  length x = length list_of_subsets →
  Forall binary x →
  let n := length list_of_subsets in
  let r := get_setpacking_qubitops list_of_subsets in
  let sol := get_solution x in
  (∀ i, i < n →
        ∃ s, sol !! i = Some s
             ∧ (2 * s = pauli_value (z_term n [i]) x + 1)%Z)
  ∧ (energy r.1 x + r.2
     == 10 * Qnat (length (conflicts sol list_of_subsets))
        - Qnat (length (selected sol n)))%Q.
Proof.
  intros Hlen Hbin n r sol. split.
  - intros i Hi. destruct (bit_of_state list_of_subsets x Hlen Hbin i Hi)
      as (b & Hb & _).
    exists (1 - b)%Z. split.
    + subst sol. unfold get_solution. by rewrite list_lookup_fmap, Hb.
    + rewrite (pauli_value_single n i x b) by done. lia.
  - subst r sol n. rewrite (energy_closed list_of_subsets x Hlen Hbin).
    unfold packing_cost, Qnat.
    rewrite <- Z.add_opp_r, inject_Z_plus, inject_Z_opp, inject_Z_mult.
    change (inject_Z 10) with 10%Q. ring.
Qed.

Lemma get_setpacking_qubitops_energy_witness :
  (∀ i, i < 3 →
        ∃ s, get_solution [0; 0; 1]%Z !! i = Some s
             ∧ (2 * s = pauli_value (z_term 3 [i]) [0; 0; 1] + 1)%Z)
  ∧ (energy (get_setpacking_qubitops example_subsets).1 [0; 0; 1]%Z
     + (get_setpacking_qubitops example_subsets).2
     == 10 * Qnat (length (conflicts (get_solution [0; 0; 1]%Z) example_subsets))
        - Qnat (length (selected (get_solution [0; 0; 1]%Z) 3)))%Q.
Proof.
  apply (get_setpacking_qubitops_energy example_subsets [0; 0; 1]%Z).
  - reflexivity.
  - repeat constructor; (by left) || (by right).
Defined.


(** ** The packing the operator encodes *)

(** X11.  [check_disjoint] accepts the selection [get_solution x] exactly
    when the value of the operator on [x], with the shift, is minus the
    number of selected subsets; a selection it rejects costs at least 10
    more. *)
Theorem check_disjoint_iff_no_penalty `{Countable E}
    (list_of_subsets : list (list E)) (x : list Z) :
  length x = length list_of_subsets →
  Forall binary x →
  let n := length list_of_subsets in
  let r := get_setpacking_qubitops list_of_subsets in
  let sol := get_solution x in
  ∃ b, check_disjoint sol list_of_subsets = Ok b
       ∧ (b = true ↔ (energy r.1 x + r.2 == - Qnat (length (selected sol n)))%Q)
       ∧ (b = false → (10 - Qnat (length (selected sol n)) <= energy r.1 x + r.2)%Q).
Proof.
  intros Hlen Hbin n r sol. subst n.
  destruct (check_disjoint_conflicts sol list_of_subsets) as (b & Hb & Hiff).
  { subst sol. rewrite get_solution_length. lia. }
  exists b. split; [done|].
  pose proof (energy_closed list_of_subsets x Hlen Hbin) as Hcost.
  cbn zeta in Hcost. fold r sol in Hcost.
  assert (Hq : (energy r.1 x + r.2
                == 10 * Qnat (length (conflicts sol list_of_subsets))
                   - Qnat (length (selected sol (length list_of_subsets))))%Q).
  { rewrite Hcost. unfold packing_cost, Qnat.
    rewrite <- Z.add_opp_r, inject_Z_plus, inject_Z_opp, inject_Z_mult.
    change (inject_Z 10) with 10%Q. ring. }
  assert (Hpos : conflicts sol list_of_subsets ≠ [] →
                 (1 <= Qnat (length (conflicts sol list_of_subsets)))%Q).
  { intros Hne. unfold Qnat. change 1%Q with (inject_Z 1). rewrite <- Zle_Qle.
    destruct (conflicts sol list_of_subsets); [done | simpl; lia]. }
  split; [split|].
  - intros Htrue. apply Hiff in Htrue. rewrite Hq, Htrue.
    cbn [length]. change (Qnat 0) with 0%Q. ring.
  - intros Heq. apply Hiff.
    destruct (decide (conflicts sol list_of_subsets = [])) as [|Hne]; [done|].
    apply Hpos in Hne. rewrite Hq in Heq. lra.
  - intros Hfalse. rewrite Hq.
    assert (Hne : conflicts sol list_of_subsets ≠ []).
    { intros Hnil. apply Hiff in Hnil. congruence. }
    apply Hpos in Hne. lra.
Qed.

Lemma check_disjoint_iff_no_penalty_witness :
  ∃ b, check_disjoint (get_solution [0; 1; 0]%Z) example_subsets = Ok b
       ∧ (b = true
          ↔ (energy (get_setpacking_qubitops example_subsets).1 [0; 1; 0]%Z
             + (get_setpacking_qubitops example_subsets).2
             == - Qnat (length (selected (get_solution [0; 1; 0]%Z) 3)))%Q)
       ∧ (b = false
          → (10 - Qnat (length (selected (get_solution [0; 1; 0]%Z) 3))
             <= energy (get_setpacking_qubitops example_subsets).1 [0; 1; 0]%Z
                + (get_setpacking_qubitops example_subsets).2)%Q).
Proof.
  apply (check_disjoint_iff_no_penalty example_subsets [0; 1; 0]%Z).
  - reflexivity.
  - repeat constructor; (by left) || (by right).
Defined.


(** X12.  A basis state of least value decodes to a best packing.  If no
    vector of [n] bits gives the operator a smaller value than [x] does,
    then [check_disjoint] accepts [get_solution x], and no selection that
    [check_disjoint] accepts has more subsets. *)
Theorem ground_state_is_maximum_packing `{Countable E}
    (list_of_subsets : list (list E)) (x : list Z) :
  length x = length list_of_subsets →
  Forall binary x →
  (∀ x', length x' = length list_of_subsets → Forall binary x' →
         (energy (get_setpacking_qubitops list_of_subsets).1 x
          <= energy (get_setpacking_qubitops list_of_subsets).1 x')%Q) →
  check_disjoint (get_solution x) list_of_subsets = Ok true
  ∧ ∀ sol', length sol' = length list_of_subsets → Forall binary sol' →
            check_disjoint sol' list_of_subsets = Ok true →
            length (selected sol' (length list_of_subsets))
            ≤ length (selected (get_solution x) (length list_of_subsets)).
Proof.
  intros Hlen Hbin Hmin.
  set (r := get_setpacking_qubitops list_of_subsets) in *.
  assert (Hle : ∀ x', length x' = length list_of_subsets → Forall binary x' →
            (packing_cost (get_solution x) list_of_subsets
             <= packing_cost (get_solution x') list_of_subsets)%Z).
  { intros x' Hlen' Hbin'. rewrite Zle_Qle.
    rewrite <- (energy_closed list_of_subsets x Hlen Hbin).
    rewrite <- (energy_closed list_of_subsets x' Hlen' Hbin').
    cbn zeta. fold r. specialize (Hmin x' Hlen' Hbin'). lra. }
  destruct (check_disjoint_conflicts (get_solution x) list_of_subsets)
    as (b & Hb & Hiff).
  { rewrite get_solution_length. lia. }
  assert (Hnil : conflicts (get_solution x) list_of_subsets = []).
  { destruct (conflicts (get_solution x) list_of_subsets) as [|[i j] cs] eqn:Hcs;
      [done|].
    assert (Hij : (i, j) ∈ conflicts (get_solution x) list_of_subsets)
      by (rewrite Hcs; left).
    pose proof (deselect_cost _ _ i j Hij) as Hless.
    specialize (Hle (<[i:=1%Z]> x)).
    unfold get_solution in Hle at 2. rewrite list_fmap_insert in Hle.
    fold (get_solution x) in Hle. change (1 - 1)%Z with 0%Z in Hle.
    rewrite length_insert in Hle.
    specialize (Hle Hlen (Forall_insert _ _ _ _ Hbin (or_intror eq_refl))).
    rewrite Hcs in *. lia. }
  split.
  - rewrite Hb. f_equal. by apply Hiff.
  - intros sol' Hlen' Hbin' Hok.
    destruct (check_disjoint_conflicts sol' list_of_subsets ltac:(lia))
      as (b' & Hb' & Hiff').
    assert (Hnil' : conflicts sol' list_of_subsets = []).
    { apply Hiff'. congruence. }
    specialize (Hle (get_solution sol')).
    rewrite get_solution_length, get_solution_twice in Hle.
    specialize (Hle Hlen' (get_solution_binary _ Hbin')).
    unfold packing_cost in Hle. rewrite Hnil, Hnil' in Hle. simpl in Hle. lia.
Qed.

Lemma ground_state_is_maximum_packing_witness :
  check_disjoint (get_solution [0; 1; 0]%Z) example_subsets = Ok true
  ∧ ∀ sol', length sol' = length example_subsets → Forall binary sol' →
            check_disjoint sol' example_subsets = Ok true →
            length (selected sol' (length example_subsets))
            ≤ length (selected (get_solution [0; 1; 0]%Z) (length example_subsets)).
Proof.
  apply (ground_state_is_maximum_packing example_subsets [0; 1; 0]%Z).
  - reflexivity.
  - repeat constructor; (by left) || (by right).
  - intros [|a [|b [|c [|d x']]]] Hlen Hbin; try discriminate Hlen.
    apply Forall_cons in Hbin as [Ha Hbin].
    apply Forall_cons in Hbin as [Hb Hbin].
    apply Forall_cons in Hbin as [Hc _].
    destruct Ha as [->| ->], Hb as [->| ->], Hc as [->| ->];
      vm_compute; discriminate.
Defined.

(** ** [read_numbers_from_file] *)

(** X13.  [read_numbers_from_file] stops at the first line that is not an
    integer, whatever follows it, and that line decides the exception:
    the one [float] raises on it, [ValueError] for a NaN, [OverflowError]
    for an infinity, [AssertionError] for a number that is not whole. *)
Theorem read_numbers_from_file_first_failure
    (py_float : string → result spec_float)
    (fs : gmap string string) (filename content : string)
    (pre post : list string) (line : string) :
  fs !! filename = Some content →
  file_lines content = pre ++ line :: post →
  Forall (λ l, ∃ f z, py_float l = Ok f ∧ integer_of f = Some z) pre →
  let r := read_numbers_from_file py_float fs filename in
  (∀ e, py_float line = Raise e → r = Raise e)
  ∧ (py_float line = Ok S754_nan → r = Raise ValueError)
  ∧ (∀ s, py_float line = Ok (S754_infinity s) → r = Raise OverflowError)
  ∧ (∀ f, py_float line = Ok f → is_finite f = true → integer_of f = None →
          r = Raise AssertionError).
Proof.
  intros Hfile Hlines Hpre r. subst r.
  rewrite (read_numbers_from_file_unfold py_float fs filename content Hfile), Hlines.
  assert (Hpre' : Forall (λ l, ∃ z, line_outcome py_float l = Ok z) pre).
  { eapply Forall_impl; [exact Hpre|]. intros l (f & z & Hf & Hz).
    exists z. apply line_outcome_Ok. by exists f. }
  repeat split.
  - intros e He. apply map_result_first_failure; [done|].
    unfold line_outcome. by rewrite He.
  - intros Hnan. apply map_result_first_failure; [done|].
    unfold line_outcome. by rewrite Hnan.
  - intros s Hinf. apply map_result_first_failure; [done|].
    unfold line_outcome. by rewrite Hinf.
  - intros f Hf Hfin Hnone. apply map_result_first_failure; [done|].
    by rewrite (line_outcome_finite py_float line f Hf Hfin), Hnone.
Qed.

Lemma read_numbers_from_file_first_failure_witness :
  (∀ e, float_of_decimal (text_line "7.5") = Raise e →
        read_numbers_from_file float_of_decimal example_files "halves.txt"
        = Raise e)
  ∧ (float_of_decimal (text_line "7.5") = Ok S754_nan →
     read_numbers_from_file float_of_decimal example_files "halves.txt"
     = Raise ValueError)
  ∧ (∀ s, float_of_decimal (text_line "7.5") = Ok (S754_infinity s) →
          read_numbers_from_file float_of_decimal example_files "halves.txt"
          = Raise OverflowError)
  ∧ (∀ f, float_of_decimal (text_line "7.5") = Ok f → is_finite f = true →
          integer_of f = None →
          read_numbers_from_file float_of_decimal example_files "halves.txt"
          = Raise AssertionError).
Proof.
  apply (read_numbers_from_file_first_failure float_of_decimal example_files
           "halves.txt" (text_line "12" +:+ text_line "7.5" +:+ text_line "3")
           [text_line "12"] [text_line "3"] (text_line "7.5")).
  - reflexivity.
  - by vm_compute.
  - repeat constructor. eexists _, _. split; by vm_compute.
Defined.
